(** * A sliding-window rate limiter (src/index.ts)

    Shallow embedding of the [RateLimiter] class and proofs of its
    admission, pruning and cleanup properties.

    A TypeScript [number] is a binary64 value. The class is embedded twice:
    - at top level over [Z], the integer model: instants, durations and
      quotas are integers and the subtraction is exact. The code computes
      the same results on integers of magnitude at most 2^53 - 1
      ([isSafeInteger]): these are binary64 values, a difference of two of
      them is rounded only when its magnitude exceeds 2^53, and it is then
      on the same side of every such integer as the exact difference;
    - in [Module Binary64] over primitive floats, with the rounded
      subtraction and the comparisons of the language (false on NaN); it
      covers fractions, NaN and magnitudes beyond 2^53.

    Other conventions:
    - [Map<UserId, UserRequests>] is a [gmap] from strings to lists; the
      arrays held by the map are mutated in place by the source ([splice],
      [push]), which the embedding writes as re-inserting the new array
      under the same key;
    - a method returns an [Effect]: its return value, the instance after the
      call, and what it wrote on the console;
    - [Date.now()] is an argument of the sweep;
    - [Module Runtime] adds the timer table of the runtime, to follow
      [setInterval] and [clearInterval]. *)

From Stdlib Require Import Sorting.Sorted.
From Stdlib Require Import Floats.PrimFloat.
From Stdlib Require Numbers.Cyclic.Int63.Uint63.
From stdpp Require Import gmap strings list fin_maps.

Open Scope Z_scope.

(** ** Data model *)

(** [UserId] is [string] and [UserRequests] is [list Z], oldest entry first. *)

(** The handle returned by [setInterval]: only its period is kept. *)
Record Timeout := { delay : Z }.

Record RateLimiter := {
  timeWindow : Z;
  maxRequests : Z;
  requests : gmap string (list Z);
  cleanupInterval : option Timeout
}.

Definition CLEANUP_FREQUENCY : Z := 60 * 1000.

(** The thrown [Error] object, with its message. *)
Inductive Exception := Error (message : string).

(** Lines written by [console.warn] and [console.log]. *)
Inductive ConsoleMsg :=
| Warn (text : string) (id : string)
| Log (text : string).

Record Effect (A : Type) := {
  ret : A;
  self : RateLimiter;
  out : list ConsoleMsg
}.
Arguments ret {A} _.
Arguments self {A} _.
Arguments out {A} _.

Definition setRequests (rl : RateLimiter) (m : gmap string (list Z)) : RateLimiter :=
  {| timeWindow := timeWindow rl; maxRequests := maxRequests rl;
     requests := m; cleanupInterval := cleanupInterval rl |}.

Definition setCleanupInterval (rl : RateLimiter) (h : option Timeout) : RateLimiter :=
  {| timeWindow := timeWindow rl; maxRequests := maxRequests rl;
     requests := requests rl; cleanupInterval := h |}.

(** ** Operations *)

(** [startCleanupTask]: clears a previous interval if there is one, then
    installs a new one. *)
Definition startCleanupTask (rl : RateLimiter) : RateLimiter :=
  let rl1 := match cleanupInterval rl with
             | Some _ => setCleanupInterval rl None
             | None => rl
             end in
  setCleanupInterval rl1 (Some {| delay := CLEANUP_FREQUENCY |}).

Definition stopCleanupTask (rl : RateLimiter) : RateLimiter :=
  match cleanupInterval rl with
  | Some _ => setCleanupInterval rl None
  | None => rl
  end.

(** The constructor either throws or returns the instance. *)
Definition constructor (timeWindow maxRequests : Z) : Exception + RateLimiter :=
  if (timeWindow <=? 0) || (maxRequests <=? 0) then
    inl (Error "timeWindow and maxRequests must be positive numbers.")
  else
    inr (startCleanupTask
           {| timeWindow := timeWindow; maxRequests := maxRequests;
              requests := ∅; cleanupInterval := None |}).

(** The loop
      [while (i < userRequests.length && ref - userRequests[i] >= timeWindow) i++]
    shared by the admission check and the sweep; [fuel] bounds the number of
    iterations and the result is the final value of [i]. *)
Fixpoint staleScan (fuel : nat) (window ref : Z) (userRequests : list Z) (i : nat) : nat :=
  match fuel with
  | O => i
  | S fuel' =>
      match userRequests !! i with
      | Some t =>
          if window <=? ref - t then staleScan fuel' window ref userRequests (S i)
          else i
      | None => i
      end
  end.

(** The loop condition, as a boolean. *)
Definition scanGuard (window ref : Z) (userRequests : list Z) (i : nat) : bool :=
  match userRequests !! i with
  | Some t => window <=? ref - t
  | None => false
  end.

(** The loop followed by [if (i > 0) userRequests.splice(0, i)]. *)
Definition prune (window ref : Z) (userRequests : list Z) : list Z :=
  let i := staleScan (length userRequests) window ref userRequests 0 in
  if (0 <? i)%nat then drop i userRequests else userRequests.

Definition acceptRequest (rl : RateLimiter) (id : string) (timestamp : Z) : Effect bool :=
  if timestamp <? 0 then
    {| ret := false; self := rl;
       out := [Warn "Timestamp cannot be negative. Request rejected for user:" id] |}
  else
    match requests rl !! id with
    | None =>
        {| ret := true;
           self := setRequests rl (<[id := [timestamp]]> (requests rl));
           out := [] |}
    | Some userRequests =>
        let userRequests := prune (timeWindow rl) timestamp userRequests in
        if maxRequests rl <=? Z.of_nat (length userRequests) then
          {| ret := false;
             self := setRequests rl (<[id := userRequests]> (requests rl));
             out := [] |}
        else
          {| ret := true;
             self := setRequests rl (<[id := userRequests ++ [timestamp]]> (requests rl));
             out := [] |}
    end.

(** One iteration of the [for] loop of [cleanupStaleRequests]. *)
Definition cleanupEntry (window now : Z) (m : gmap string (list Z))
    (entry : string * list Z) : gmap string (list Z) :=
  let userRequests := prune window now entry.2 in
  if (length userRequests =? 0)%nat then delete entry.1 m
  else <[entry.1 := userRequests]> m.

(** The sweep visits every entry of the map once; [now] is [Date.now()]. *)
Definition cleanupStaleRequests (rl : RateLimiter) (now : Z) : Effect unit :=
  {| ret := tt;
     self := setRequests rl
               (foldl (cleanupEntry (timeWindow rl) now) (requests rl)
                      (map_to_list (requests rl)));
     out := [Log "RateLimiter cleanup performed."] |}.

Definition getCurrentRequestCount (rl : RateLimiter) (id : string) : nat :=
  match requests rl !! id with
  | Some userRequests => length userRequests
  | None => O
  end.

Definition getTrackedUserCount (rl : RateLimiter) : nat := size (requests rl).

(** ** Runs and reachable states *)

(** A sequence of [acceptRequest] calls, with the list of their results. *)
Fixpoint acceptAll (rl : RateLimiter) (calls : list (string * Z)) : list bool * RateLimiter :=
  match calls with
  | [] => ([], rl)
  | (id, timestamp) :: rest =>
      let e := acceptRequest rl id timestamp in
      let r := acceptAll (self e) rest in
      (ret e :: r.1, r.2)
  end.

(** Every state an instance can be in: built by the constructor, then any
    interleaving of admission checks, sweeps and stops. *)
Inductive reachable : RateLimiter → Prop :=
| reach_new tw mr rl :
    constructor tw mr = inr rl → reachable rl
| reach_accept rl id timestamp :
    reachable rl → reachable (self (acceptRequest rl id timestamp))
| reach_cleanup rl now :
    reachable rl → reachable (self (cleanupStaleRequests rl now))
| reach_stop rl :
    reachable rl → reachable (stopCleanupTask rl).

(** The entries of a log that lie inside the half-open window ending at [ref]. *)
Definition inWindow (window ref t : Z) : bool := ref - t <? window.

Definition countInWindow (window ref : Z) (log : list Z) : nat :=
  length (filter (λ t, inWindow window ref t = true) log).

(** ** The usage example of the source *)

Definition limiter1 : Exception + RateLimiter := constructor 5000 2.

Definition usageCalls : list (string * Z) :=
  [("userA", 1000); ("userA", 2000); ("userA", 3000); ("userB", 3000);
   ("userA", 6000); ("userA", 7000); ("userA", 8000)].

(** The instance built by [new RateLimiter(5000, 2)], and its state after the
    first two calls of the usage example. *)
Definition limiter1Fresh : RateLimiter :=
  startCleanupTask
    {| timeWindow := 5000; maxRequests := 2; requests := ∅; cleanupInterval := None |}.

Definition limiter1Full : RateLimiter :=
  self (acceptRequest (self (acceptRequest limiter1Fresh "userA" 1000)) "userA" 2000).

(** The error the constructor throws; the specification calls it
    InvalidConfiguration. *)
Definition InvalidConfiguration : Exception :=
  Error "timeWindow and maxRequests must be positive numbers.".

(** What the sweep leaves under a key whose log was [log]: nothing when
    pruning empties it. *)
Definition sweepLog (window now : Z) (log : list Z) : option (list Z) :=
  let userRequests := prune window now log in
  if (length userRequests =? 0)%nat then None else Some userRequests.

(** Invariants of the store. *)
Definition boundedLogs (rl : RateLimiter) : Prop :=
  ∀ id log, requests rl !! id = Some log → Z.of_nat (length log) ≤ maxRequests rl.

Definition nonEmptyLogs (rl : RateLimiter) : Prop :=
  ∀ id log, requests rl !! id = Some log → log ≠ [].

Definition positiveConfig (rl : RateLimiter) : Prop :=
  0 < timeWindow rl ∧ 0 < maxRequests rl.

(** The log stored for a client, empty when the client is not tracked. *)
Definition storedLog (rl : RateLimiter) (id : string) : list Z :=
  default [] (requests rl !! id).

(** ** Runs of admission checks and sweeps *)

Inductive Call :=
| Accept (id : string) (timestamp : Z)
| Sweep (now : Z).

Definition perform (rl : RateLimiter) (c : Call) : RateLimiter :=
  match c with
  | Accept id timestamp => self (acceptRequest rl id timestamp)
  | Sweep now => self (cleanupStaleRequests rl now)
  end.

(** The timestamp a call adds to the admitted requests of client [id]. *)
Definition admits (id : string) (rl : RateLimiter) (c : Call) : list Z :=
  match c with
  | Accept id' timestamp =>
      if bool_decide (id' = id) && ret (acceptRequest rl id' timestamp)
      then [timestamp] else []
  | Sweep _ => []
  end.

(** The timestamps of the requests of client [id] that a run admits, in the
    order of the calls. *)
Fixpoint admittedFor (id : string) (rl : RateLimiter) (calls : list Call) : list Z :=
  match calls with
  | [] => []
  | c :: rest => admits id rl c ++ admittedFor id (perform rl c) rest
  end.

(** The instant at which a call looks at the log of client [id]: the
    timestamp of a check for [id], the clock of a sweep. *)
Definition instantOf (id : string) (c : Call) : option Z :=
  match c with
  | Accept id' timestamp => if bool_decide (id' = id) then Some timestamp else None
  | Sweep now => Some now
  end.

Definition instantsFor (id : string) (calls : list Call) : list Z :=
  omap (instantOf id) calls.

(** Every admitted request has, counting itself and the admitted requests
    before it, at most [quota] requests less than [window] before it. *)
Definition windowed (window quota : Z) (admitted : list Z) : Prop :=
  ∀ k t, admitted !! k = Some t →
         Z.of_nat (countInWindow window t (take (S k) admitted)) ≤ quota.

(** The number of admitted requests with a timestamp in the window of length
    [window] that ends at [x], that is in the interval (x - window, x]. *)
Definition admittedWithin (window x : Z) (admitted : list Z) : nat :=
  length (filter (λ t, x - window < t ∧ t ≤ x) admitted).

(** The usage example as a run, with a sweep in the middle. *)
Definition usageRun : list Call :=
  [Accept "userA" 1000; Accept "userA" 2000; Accept "userA" 3000;
   Accept "userB" 3000; Sweep 3500; Accept "userA" 6000; Accept "userA" 7000;
   Accept "userA" 8000].

(** ** Integers that binary64 holds exactly *)

(** [Number.isSafeInteger]: an integer of magnitude at most 2^53 - 1. *)
Definition isSafeInteger (z : Z) : Prop := - (2 ^ 53 - 1) ≤ z ≤ 2 ^ 53 - 1.

Definition safeConfig (rl : RateLimiter) : Prop :=
  isSafeInteger (timeWindow rl) ∧ isSafeInteger (maxRequests rl).


(** ** The class over binary64 numbers *)

Module Binary64.

Record RateLimiter := {
  timeWindow : float;
  maxRequests : float;
  requests : gmap string (list float);
  cleanupInterval : option Timeout
}.

Record Effect (A : Type) := {
  ret : A;
  self : RateLimiter;
  out : list ConsoleMsg
}.
Arguments ret {A} _.
Arguments self {A} _.
Arguments out {A} _.

(** The number that is the integer [z], exact for [0 <= z <= 2^53] and for
    the powers of two below 2^63. *)
Definition ofZ (z : Z) : float := PrimFloat.of_uint63 (Uint63.of_Z z).

(** [userRequests.length] as a number; the length of an array is below
    2^32. *)
Definition ofLength (n : nat) : float := ofZ (Z.of_nat n).

Definition setRequests (rl : RateLimiter) (m : gmap string (list float)) : RateLimiter :=
  {| timeWindow := timeWindow rl; maxRequests := maxRequests rl;
     requests := m; cleanupInterval := cleanupInterval rl |}.

Definition setCleanupInterval (rl : RateLimiter) (h : option Timeout) : RateLimiter :=
  {| timeWindow := timeWindow rl; maxRequests := maxRequests rl;
     requests := requests rl; cleanupInterval := h |}.

Definition startCleanupTask (rl : RateLimiter) : RateLimiter :=
  let rl1 := match cleanupInterval rl with
             | Some _ => setCleanupInterval rl None
             | None => rl
             end in
  setCleanupInterval rl1 (Some {| delay := CLEANUP_FREQUENCY |}).

Definition constructor (timeWindow maxRequests : float) : Exception + RateLimiter :=
  if PrimFloat.leb timeWindow 0%float || PrimFloat.leb maxRequests 0%float then
    inl (Error "timeWindow and maxRequests must be positive numbers.")
  else
    inr (startCleanupTask
           {| timeWindow := timeWindow; maxRequests := maxRequests;
              requests := ∅; cleanupInterval := None |}).

(** The test [ref - t >= timeWindow] of both loops. *)
Definition isStale (window ref t : float) : bool :=
  PrimFloat.leb window (PrimFloat.sub ref t).

Fixpoint staleScan (fuel : nat) (window ref : float) (userRequests : list float)
    (i : nat) : nat :=
  match fuel with
  | O => i
  | S fuel' =>
      match userRequests !! i with
      | Some t =>
          if isStale window ref t then staleScan fuel' window ref userRequests (S i)
          else i
      | None => i
      end
  end.

Definition prune (window ref : float) (userRequests : list float) : list float :=
  let i := staleScan (length userRequests) window ref userRequests 0 in
  if (0 <? i)%nat then drop i userRequests else userRequests.

Definition acceptRequest (rl : RateLimiter) (id : string) (timestamp : float) : Effect bool :=
  if PrimFloat.ltb timestamp 0%float then
    {| ret := false; self := rl;
       out := [Warn "Timestamp cannot be negative. Request rejected for user:" id] |}
  else
    match requests rl !! id with
    | None =>
        {| ret := true;
           self := setRequests rl (<[id := [timestamp]]> (requests rl));
           out := [] |}
    | Some userRequests =>
        let userRequests := prune (timeWindow rl) timestamp userRequests in
        if PrimFloat.leb (maxRequests rl) (ofLength (length userRequests)) then
          {| ret := false;
             self := setRequests rl (<[id := userRequests]> (requests rl));
             out := [] |}
        else
          {| ret := true;
             self := setRequests rl (<[id := userRequests ++ [timestamp]]> (requests rl));
             out := [] |}
    end.

Definition cleanupEntry (window now : float) (m : gmap string (list float))
    (entry : string * list float) : gmap string (list float) :=
  let userRequests := prune window now entry.2 in
  if (length userRequests =? 0)%nat then delete entry.1 m
  else <[entry.1 := userRequests]> m.

Definition cleanupStaleRequests (rl : RateLimiter) (now : float) : Effect unit :=
  {| ret := tt;
     self := setRequests rl
               (foldl (cleanupEntry (timeWindow rl) now) (requests rl)
                      (map_to_list (requests rl)));
     out := [Log "RateLimiter cleanup performed."] |}.

Definition getCurrentRequestCount (rl : RateLimiter) (id : string) : nat :=
  match requests rl !! id with
  | Some userRequests => length userRequests
  | None => O
  end.

(** The stored entries for which [ref - t < window] holds in the arithmetic
    of the language. *)
Definition countInWindow (window ref : float) (log : list float) : nat :=
  length (List.filter (λ t, PrimFloat.ltb (PrimFloat.sub ref t) window) log).

End Binary64.

(** ** The cleanup task and the timers of the runtime *)

Module Runtime.

(** The intervals the runtime has scheduled, by handle, with their periods;
    [nextHandle] is the handle the next [setInterval] returns. *)
Record Timers := {
  scheduled : gmap nat Z;
  nextHandle : nat
}.

Definition setInterval (period : Z) (timers : Timers) : nat * Timers :=
  (nextHandle timers,
   {| scheduled := <[nextHandle timers := period]> (scheduled timers);
      nextHandle := S (nextHandle timers) |}).

Definition clearInterval (handle : nat) (timers : Timers) : Timers :=
  {| scheduled := delete handle (scheduled timers);
     nextHandle := nextHandle timers |}.

(** The field [cleanupInterval] of an instance, with the timers. *)
Record Task := {
  cleanupInterval : option nat;
  timers : Timers
}.

Definition startCleanupTask (s : Task) : Task :=
  let timers1 := match cleanupInterval s with
                 | Some handle => clearInterval handle (timers s)
                 | None => timers s
                 end in
  let r := setInterval CLEANUP_FREQUENCY timers1 in
  {| cleanupInterval := Some r.1; timers := r.2 |}.

Definition stopCleanupTask (s : Task) : Task :=
  match cleanupInterval s with
  | Some handle =>
      {| cleanupInterval := None; timers := clearInterval handle (timers s) |}
  | None => s
  end.

(** Every handle in use was returned by an earlier [setInterval]. *)
Definition issued (s : Task) : Prop :=
  (∀ handle period, scheduled (timers s) !! handle = Some period →
                    (handle < nextHandle (timers s))%nat) ∧
  (∀ handle, cleanupInterval s = Some handle → (handle < nextHandle (timers s))%nat).

End Runtime.

(** ** The scan and the prune *)

Section Prune.
Variables window ref : Z.

Lemma staleScan_shift fuel t (log : list Z) i :
  staleScan fuel window ref (t :: log) (S i) = S (staleScan fuel window ref log i).
Proof.
  revert i. induction fuel as [|fuel IH]; intros i; simpl; [done|].
  destruct (log !! i) as [u|]; [|done].
  destruct (window <=? ref - u); [apply IH|done].
Qed.

(** The loop runs to its exit within [length log] iterations: at the index
    it returns, the loop condition is false. *)
Lemma staleScan_exits_from fuel (log : list Z) i :
  (length log ≤ fuel + i)%nat →
  scanGuard window ref log (staleScan fuel window ref log i) = false.
Proof.
  revert i. induction fuel as [|fuel IH]; intros i Hlen; simpl.
  - unfold scanGuard. rewrite lookup_ge_None_2; [done|lia].
  - unfold scanGuard at 1.
    destruct (log !! i) as [t|] eqn:Hi.
    + destruct (window <=? ref - t) eqn:Ht.
      * apply IH. lia.
      * unfold scanGuard. by rewrite Hi, Ht.
    + unfold scanGuard. by rewrite Hi.
Qed.

Lemma staleScan_exits (log : list Z) :
  scanGuard window ref log (staleScan (length log) window ref log 0) = false.
Proof. apply staleScan_exits_from. lia. Qed.

Lemma prune_drop (log : list Z) :
  prune window ref log = drop (staleScan (length log) window ref log 0) log.
Proof.
  unfold prune. destruct (staleScan _ _ _ _ _) as [|j]; simpl; done.
Qed.

Lemma prune_nil : prune window ref [] = [].
Proof. done. Qed.

Lemma prune_cons_stale t (log : list Z) :
  window ≤ ref - t → prune window ref (t :: log) = prune window ref log.
Proof.
  intros Ht. rewrite !prune_drop. simpl.
  destruct (Z.leb_spec window (ref - t)); [|lia].
  by rewrite staleScan_shift.
Qed.

Lemma prune_cons_fresh t (log : list Z) :
  ref - t < window → prune window ref (t :: log) = t :: log.
Proof.
  intros Ht. unfold prune. simpl.
  destruct (Z.leb_spec window (ref - t)); [lia|done].
Qed.

Lemma prune_split (log : list Z) :
  ∃ stale, log = stale ++ prune window ref log ∧
           Forall (λ t, window ≤ ref - t) stale.
Proof.
  induction log as [|t log [stale [Heq Hst]]].
  - by exists [].
  - destruct (Z_le_gt_dec window (ref - t)) as [Ht|Ht].
    + exists (t :: stale). rewrite prune_cons_stale by done.
      split; [simpl; congruence|by constructor].
    + exists []. rewrite prune_cons_fresh by lia. done.
Qed.

Lemma prune_head (log : list Z) t :
  head (prune window ref log) = Some t → ref - t < window.
Proof.
  induction log as [|u log IH].
  - done.
  - destruct (Z_le_gt_dec window (ref - u)) as [Hu|Hu].
    + by rewrite prune_cons_stale.
    + rewrite prune_cons_fresh by lia. simpl. intros [= <-]. lia.
Qed.

Lemma prune_length (log : list Z) :
  (length (prune window ref log) ≤ length log)%nat.
Proof. rewrite prune_drop, length_drop. lia. Qed.

Lemma prune_keeps_fresh (log : list Z) t :
  t ∈ log → ref - t < window → t ∈ prune window ref log.
Proof.
  intros Hin Ht. destruct (prune_split log) as [stale [Heq Hst]].
  rewrite Heq in Hin. apply elem_of_app in Hin as [Hin|Hin]; [|done].
  rewrite Forall_forall in Hst. specialize (Hst _ Hin). lia.
Qed.

Lemma countInWindow_cons t (log : list Z) :
  countInWindow window ref (t :: log) =
  ((if inWindow window ref t then 1 else 0) + countInWindow window ref log)%nat.
Proof.
  unfold countInWindow. rewrite filter_cons.
  destruct (decide (inWindow window ref t = true)) as [->|Hout]; [done|].
  by destruct (inWindow window ref t).
Qed.

Lemma countInWindow_le_length (log : list Z) :
  (countInWindow window ref log ≤ length log)%nat.
Proof. apply length_filter. Qed.

Lemma countInWindow_prune (log : list Z) :
  countInWindow window ref (prune window ref log) = countInWindow window ref log.
Proof.
  induction log as [|t log IH]; [done|].
  destruct (Z_le_gt_dec window (ref - t)) as [Ht|Ht].
  - rewrite prune_cons_stale, countInWindow_cons, IH by done.
    unfold inWindow. destruct (Z.ltb_spec (ref - t) window); [lia|done].
  - by rewrite prune_cons_fresh by lia.
Qed.

(** On a log in non-decreasing order nothing stale survives the prune. *)
Lemma prune_sorted_fresh (log : list Z) :
  Sorted Z.le log → Forall (λ t, ref - t < window) (prune window ref log).
Proof.
  induction log as [|t log IH]; intros Hs.
  - rewrite prune_nil. constructor.
  - destruct (Z_le_gt_dec window (ref - t)) as [Ht|Ht].
    + rewrite prune_cons_stale by done. apply IH. by inversion Hs.
    + rewrite prune_cons_fresh by lia.
      apply Sorted_StronglySorted in Hs; [|intros ???; lia].
      inversion Hs as [|?? _ Hall]; subst. constructor; [lia|].
      eapply Forall_impl; [exact Hall|]. simpl. intros; lia.
Qed.
End Prune.

(** C1: with window 5000 and quota 2, the seven calls of the usage example
    return true, true, false, true, true, true, false, in that order. *)
Theorem usage_example_results :
  ∃ rl, limiter1 = inr rl ∧
        (acceptAll rl usageCalls).1 = [true; true; false; true; true; true; false].
Proof.
  eexists. split; [reflexivity|]. vm_compute. reflexivity.
Qed.

(** ** Frame lemmas: what each operation leaves alone *)

Lemma acceptRequest_config rl id timestamp :
  timeWindow (self (acceptRequest rl id timestamp)) = timeWindow rl ∧
  maxRequests (self (acceptRequest rl id timestamp)) = maxRequests rl.
Proof.
  unfold acceptRequest.
  destruct (timestamp <? 0); [done|].
  destruct (requests rl !! id); [|done].
  simpl. by destruct (maxRequests rl <=? _).
Qed.

Lemma acceptRequest_other rl id timestamp id' :
  id ≠ id' →
  requests (self (acceptRequest rl id timestamp)) !! id' = requests rl !! id'.
Proof.
  intros Hne. unfold acceptRequest.
  destruct (timestamp <? 0); [done|].
  destruct (requests rl !! id); simpl.
  - destruct (maxRequests rl <=? _); simpl; by rewrite lookup_insert_ne.
  - by rewrite lookup_insert_ne.
Qed.

(** The log of the client itself after a call with a valid timestamp. *)
Lemma acceptRequest_same rl id timestamp :
  0 ≤ timestamp →
  requests (self (acceptRequest rl id timestamp)) !! id =
  match requests rl !! id with
  | None => Some [timestamp]
  | Some log =>
      let kept := prune (timeWindow rl) timestamp log in
      if maxRequests rl <=? Z.of_nat (length kept) then Some kept
      else Some (kept ++ [timestamp])
  end.
Proof.
  intros Hts. unfold acceptRequest.
  destruct (Z.ltb_spec timestamp 0); [lia|].
  destruct (requests rl !! id); simpl.
  - destruct (maxRequests rl <=? _); simpl; by rewrite lookup_insert_eq.
  - by rewrite lookup_insert_eq.
Qed.

Lemma acceptRequest_negative rl id timestamp :
  timestamp < 0 →
  acceptRequest rl id timestamp =
  {| ret := false; self := rl;
     out := [Warn "Timestamp cannot be negative. Request rejected for user:" id] |}.
Proof.
  intros Hts. unfold acceptRequest.
  destruct (Z.ltb_spec timestamp 0); [done|lia].
Qed.

Lemma stopCleanupTask_requests rl :
  requests (stopCleanupTask rl) = requests rl ∧
  timeWindow (stopCleanupTask rl) = timeWindow rl ∧
  maxRequests (stopCleanupTask rl) = maxRequests rl.
Proof. unfold stopCleanupTask. by destruct (cleanupInterval rl). Qed.

(** ** The sweep, key by key *)

Lemma cleanupEntry_lookup window now (m : gmap string (list Z)) entry id :
  cleanupEntry window now m entry !! id =
  if decide (entry.1 = id) then sweepLog window now entry.2 else m !! id.
Proof.
  unfold cleanupEntry, sweepLog. simpl.
  destruct (length (prune window now entry.2) =? 0)%nat.
  - rewrite lookup_delete. by case_decide.
  - rewrite lookup_insert. by case_decide.
Qed.

Lemma foldl_cleanupEntry_lookup window now (entries : list (string * list Z)) :
  NoDup entries.*1 →
  ∀ (m : gmap string (list Z)) id,
    foldl (cleanupEntry window now) m entries !! id =
    match (list_to_map entries : gmap string (list Z)) !! id with
    | Some log => sweepLog window now log
    | None => m !! id
    end.
Proof.
  induction entries as [|[k log] entries IH]; intros Hnd m id; simpl.
  - by rewrite lookup_empty.
  - apply NoDup_cons in Hnd as [Hk Hnd].
    rewrite IH by done.
    destruct (decide (k = id)) as [->|Hne].
    + rewrite lookup_insert_eq.
      rewrite (not_elem_of_list_to_map_1 entries id Hk).
      rewrite cleanupEntry_lookup. simpl. by rewrite decide_True.
    + rewrite lookup_insert_ne by done.
      destruct (list_to_map entries !! id); [done|].
      rewrite cleanupEntry_lookup. simpl. by rewrite decide_False.
Qed.

Lemma cleanupStaleRequests_lookup rl now id :
  requests (self (cleanupStaleRequests rl now)) !! id =
  match requests rl !! id with
  | Some log => sweepLog (timeWindow rl) now log
  | None => None
  end.
Proof.
  unfold cleanupStaleRequests. simpl.
  rewrite foldl_cleanupEntry_lookup by apply NoDup_fst_map_to_list.
  rewrite list_to_map_to_list.
  by destruct (requests rl !! id).
Qed.

Lemma sweepLog_Some window now log kept :
  sweepLog window now log = Some kept →
  kept = prune window now log ∧ kept ≠ [].
Proof.
  unfold sweepLog.
  destruct (prune window now log) as [|t kept']; simpl; [done|].
  intros [= <-]. done.
Qed.

Lemma sweepLog_all_stale window now log :
  Forall (λ t, window ≤ now - t) log → sweepLog window now log = None.
Proof.
  intros Hall. unfold sweepLog.
  destruct (prune window now log) as [|t kept] eqn:Hp; [done|].
  assert (now - t < window) as Hfresh by (apply (prune_head window now log); by rewrite Hp).
  destruct (prune_split window now log) as [stale [Heq _]].
  rewrite Forall_forall in Hall.
  assert (t ∈ log) as Hin by (rewrite Heq, Hp; set_solver).
  specialize (Hall _ Hin). lia.
Qed.

(** ** Invariants of reachable states *)

Lemma reachable_positiveConfig rl : reachable rl → positiveConfig rl.
Proof.
  induction 1 as [tw mr rl Hnew|rl id ts _ IH|rl now _ IH|rl _ IH].
  - unfold constructor in Hnew.
    destruct (Z.leb_spec tw 0); [done|].
    destruct (Z.leb_spec mr 0); [done|].
    simpl in Hnew. injection Hnew as <-. done.
  - unfold positiveConfig.
    by destruct (acceptRequest_config rl id ts) as [-> ->].
  - done.
  - unfold positiveConfig.
    by destruct (stopCleanupTask_requests rl) as (_ & -> & ->).
Qed.

Lemma acceptRequest_boundedLogs rl id timestamp :
  positiveConfig rl → boundedLogs rl →
  boundedLogs (self (acceptRequest rl id timestamp)).
Proof.
  intros [_ Hmax] Hb id' log'.
  destruct (acceptRequest_config rl id timestamp) as [_ ->].
  destruct (Z_lt_le_dec timestamp 0) as [Hneg|Hpos].
  { rewrite acceptRequest_negative by done. apply Hb. }
  destruct (decide (id = id')) as [<-|Hne].
  - rewrite acceptRequest_same by done.
    destruct (requests rl !! id) as [log|] eqn:Hlog.
    + simpl. pose proof (Hb _ _ Hlog) as Hlen.
      pose proof (prune_length (timeWindow rl) timestamp log) as Hp.
      destruct (Z.leb_spec (maxRequests rl)
                  (Z.of_nat (length (prune (timeWindow rl) timestamp log))));
        intros [= <-]; [lia|].
      rewrite length_app. simpl. lia.
    + intros [= <-]. simpl. lia.
  - rewrite acceptRequest_other by done. apply Hb.
Qed.

Lemma acceptRequest_nonEmptyLogs rl id timestamp :
  positiveConfig rl → nonEmptyLogs rl →
  nonEmptyLogs (self (acceptRequest rl id timestamp)).
Proof.
  intros [_ Hmax] Hne id' log'.
  destruct (Z_lt_le_dec timestamp 0) as [Hneg|Hpos].
  { rewrite acceptRequest_negative by done. apply Hne. }
  destruct (decide (id = id')) as [<-|Hid].
  - rewrite acceptRequest_same by done.
    destruct (requests rl !! id) as [log|] eqn:Hlog.
    + simpl.
      destruct (Z.leb_spec (maxRequests rl)
                  (Z.of_nat (length (prune (timeWindow rl) timestamp log))));
        intros [= <-].
      * intros Hnil. rewrite Hnil in *. simpl in *. lia.
      * by destruct (prune _ _ _).
    + by intros [= <-].
  - rewrite acceptRequest_other by done. apply Hne.
Qed.

Lemma cleanupStaleRequests_boundedLogs rl now :
  boundedLogs rl → boundedLogs (self (cleanupStaleRequests rl now)).
Proof.
  intros Hb id kept. rewrite cleanupStaleRequests_lookup.
  destruct (requests rl !! id) as [log|] eqn:Hlog; [|done].
  intros [-> _]%sweepLog_Some. simpl.
  pose proof (Hb _ _ Hlog). pose proof (prune_length (timeWindow rl) now log). lia.
Qed.

Lemma cleanupStaleRequests_nonEmptyLogs rl now :
  nonEmptyLogs (self (cleanupStaleRequests rl now)).
Proof.
  intros id kept. rewrite cleanupStaleRequests_lookup.
  destruct (requests rl !! id) as [log|]; [|done].
  by intros [_ ?]%sweepLog_Some.
Qed.

Lemma reachable_boundedLogs rl : reachable rl → boundedLogs rl.
Proof.
  induction 1 as [tw mr rl Hnew|rl id ts Hr IH|rl now _ IH|rl _ IH].
  - unfold constructor in Hnew.
    destruct (_ || _); [done|]. injection Hnew as <-.
    intros id log. simpl. by rewrite lookup_empty.
  - apply acceptRequest_boundedLogs; [by apply reachable_positiveConfig|done].
  - by apply cleanupStaleRequests_boundedLogs.
  - intros id log.
    destruct (stopCleanupTask_requests rl) as (-> & _ & ->). apply IH.
Qed.

Lemma reachable_nonEmptyLogs rl : reachable rl → nonEmptyLogs rl.
Proof.
  induction 1 as [tw mr rl Hnew|rl id ts Hr IH|rl now _ IH|rl _ IH].
  - unfold constructor in Hnew.
    destruct (_ || _); [done|]. injection Hnew as <-.
    intros id log. simpl. by rewrite lookup_empty.
  - apply acceptRequest_nonEmptyLogs; [by apply reachable_positiveConfig|done].
  - apply cleanupStaleRequests_nonEmptyLogs.
  - intros id log.
    destruct (stopCleanupTask_requests rl) as (-> & _ & _). apply IH.
Qed.

Lemma limiter1Fresh_new : constructor 5000 2 = inr limiter1Fresh.
Proof. reflexivity. Qed.

Lemma limiter1Full_reachable : reachable limiter1Full.
Proof. do 2 apply reach_accept. exact (reach_new _ _ _ limiter1Fresh_new). Qed.

Lemma limiter1Full_userA : requests limiter1Full !! "userA" = Some [1000; 2000].
Proof. vm_compute. reflexivity. Qed.

(** An admission check reads nothing but the configuration and the log of
    the client it is about. *)
Lemma acceptRequest_local rl1 rl2 id timestamp :
  timeWindow rl1 = timeWindow rl2 →
  maxRequests rl1 = maxRequests rl2 →
  requests rl1 !! id = requests rl2 !! id →
  ret (acceptRequest rl1 id timestamp) = ret (acceptRequest rl2 id timestamp) ∧
  out (acceptRequest rl1 id timestamp) = out (acceptRequest rl2 id timestamp) ∧
  requests (self (acceptRequest rl1 id timestamp)) !! id =
  requests (self (acceptRequest rl2 id timestamp)) !! id.
Proof.
  intros Hw Hm Hlog. unfold acceptRequest. rewrite Hw, Hm, Hlog.
  destruct (timestamp <? 0); [done|].
  destruct (requests rl2 !! id); simpl.
  - destruct (maxRequests rl2 <=? _); simpl; by rewrite !lookup_insert_eq.
  - by rewrite !lookup_insert_eq.
Qed.

(** The outcome of a check on a tracked client, with a valid timestamp. *)
Lemma acceptRequest_ret rl id timestamp log :
  0 ≤ timestamp → requests rl !! id = Some log →
  ret (acceptRequest rl id timestamp) =
  negb (maxRequests rl <=? Z.of_nat (length (prune (timeWindow rl) timestamp log))).
Proof.
  intros Hts Hlog. unfold acceptRequest. rewrite Hlog.
  destruct (Z.ltb_spec timestamp 0); [lia|].
  simpl. by destruct (maxRequests rl <=? _).
Qed.

(** ** The properties of the specification *)

(** C2 (amended to an integer quota): with integer [maxRequests], window and
    timestamps, in every reachable state, for every client and every call
    instant, the number of entries of the client's log that lie in the
    window ending at that instant is at most [maxRequests]: in the stored
    log the call finds, in the pruned log the quota test looks at, and in
    the log the call leaves. *)
Theorem quota_at_decision rl id timestamp :
  reachable rl →
  (∀ log, requests rl !! id = Some log →
     Z.of_nat (countInWindow (timeWindow rl) timestamp log) ≤ maxRequests rl ∧
     Z.of_nat (countInWindow (timeWindow rl) timestamp
                 (prune (timeWindow rl) timestamp log)) ≤ maxRequests rl) ∧
  (∀ log', requests (self (acceptRequest rl id timestamp)) !! id = Some log' →
     Z.of_nat (countInWindow (timeWindow rl) timestamp log') ≤ maxRequests rl).
Proof.
  intros Hr. split.
  - intros log Hlog.
    pose proof (reachable_boundedLogs rl Hr id log Hlog) as Hlen.
    pose proof (countInWindow_le_length (timeWindow rl) timestamp log) as Hc.
    rewrite countInWindow_prune. lia.
  - intros log' Hlog'.
    pose proof (reachable_boundedLogs _ (reach_accept rl id timestamp Hr) id log' Hlog') as Hlen.
    destruct (acceptRequest_config rl id timestamp) as [_ Hm]. rewrite Hm in Hlen.
    pose proof (countInWindow_le_length (timeWindow rl) timestamp log') as Hc.
    lia.
Qed.

Lemma quota_at_decision_witness :
  reachable limiter1Full ∧
  requests limiter1Full !! "userA" = Some [1000; 2000] ∧
  Z.of_nat (countInWindow (timeWindow limiter1Full) 3000 [1000; 2000])
    ≤ maxRequests limiter1Full.
Proof.
  split; [exact limiter1Full_reachable|].
  split; [exact limiter1Full_userA|].
  exact (proj1 (proj1 (quota_at_decision limiter1Full "userA" 3000
                         limiter1Full_reachable) _ limiter1Full_userA)).
Defined.

(** C4: whatever the configuration (in particular with [maxRequests >= 1]),
    a check with a non-negative timestamp for a client that has no entry in
    the store returns true, writes nothing on the console, and stores for
    that client the one-element log holding the timestamp, leaving every
    other entry as it was. *)
Theorem first_request_admitted rl id timestamp :
  1 ≤ maxRequests rl →
  requests rl !! id = None →
  0 ≤ timestamp →
  ret (acceptRequest rl id timestamp) = true ∧
  out (acceptRequest rl id timestamp) = [] ∧
  requests (self (acceptRequest rl id timestamp)) = <[id := [timestamp]]> (requests rl) ∧
  requests (self (acceptRequest rl id timestamp)) !! id = Some [timestamp].
Proof.
  intros _ Hnone Hts. unfold acceptRequest. rewrite Hnone.
  destruct (Z.ltb_spec timestamp 0); [lia|].
  simpl. by rewrite lookup_insert_eq.
Qed.

Lemma first_request_admitted_witness :
  ret (acceptRequest limiter1Fresh "userA" 1000) = true ∧
  requests (self (acceptRequest limiter1Fresh "userA" 1000)) !! "userA" = Some [1000].
Proof.
  assert (1 ≤ maxRequests limiter1Fresh) as Hmax by (vm_compute; discriminate).
  assert (requests limiter1Fresh !! "userA" = None) as Hnone by reflexivity.
  assert (0 ≤ 1000) as Hts by lia.
  destruct (first_request_admitted limiter1Fresh "userA" 1000 Hmax Hnone Hts)
    as (Hret & _ & _ & Hlog).
  split; [exact Hret|exact Hlog].
Defined.

(** C5: a check with a negative timestamp returns false, writes one warning
    naming the client on the console, and returns the instance as it was; a
    client that was not tracked is still not tracked, and the number of
    tracked clients is the same. *)
Theorem negative_timestamp_rejected rl id timestamp :
  timestamp < 0 →
  ret (acceptRequest rl id timestamp) = false ∧
  out (acceptRequest rl id timestamp) =
    [Warn "Timestamp cannot be negative. Request rejected for user:" id] ∧
  self (acceptRequest rl id timestamp) = rl ∧
  (requests rl !! id = None →
   requests (self (acceptRequest rl id timestamp)) !! id = None) ∧
  getTrackedUserCount (self (acceptRequest rl id timestamp)) = getTrackedUserCount rl.
Proof.
  intros Hts. by rewrite acceptRequest_negative.
Qed.

Lemma negative_timestamp_rejected_witness :
  ret (acceptRequest limiter1Fresh "X" (-5)) = false ∧
  requests (self (acceptRequest limiter1Fresh "X" (-5))) !! "X" = None.
Proof.
  assert (-5 < 0) as Hts by lia.
  destruct (negative_timestamp_rejected limiter1Fresh "X" (-5) Hts)
    as (Hret & _ & _ & Hnone & _).
  split; [exact Hret|]. apply Hnone. reflexivity.
Defined.

(** C6: the constructor throws its error, and returns no instance, exactly
    when [timeWindow] or [maxRequests] is not positive; an instance it does
    return carries the two values it was given, unchanged. In particular
    [new RateLimiter(0, 5)] and [new RateLimiter(1000, 0)] throw. *)
Theorem constructor_rejects_nonpositive tw mr :
  (tw ≤ 0 ∨ mr ≤ 0 →
   constructor tw mr = inl InvalidConfiguration ∧
   ∀ rl, constructor tw mr ≠ inr rl) ∧
  (∀ rl, constructor tw mr = inr rl →
         0 < tw ∧ 0 < mr ∧ timeWindow rl = tw ∧ maxRequests rl = mr) ∧
  constructor 0 5 = inl InvalidConfiguration ∧
  constructor 1000 0 = inl InvalidConfiguration.
Proof.
  split_and!; [| |done|done].
  - intros Hbad. unfold constructor.
    destruct (Z.leb_spec tw 0); simpl; [done|].
    destruct (Z.leb_spec mr 0); simpl; [done|lia].
  - intros rl. unfold constructor.
    destruct (Z.leb_spec tw 0); simpl; [done|].
    destruct (Z.leb_spec mr 0); simpl; [done|].
    intros [= <-]. done.
Qed.

Lemma constructor_rejects_nonpositive_witness :
  constructor (-3) 7 = inl InvalidConfiguration ∧
  timeWindow limiter1Fresh = 5000 ∧ maxRequests limiter1Fresh = 2.
Proof.
  destruct (constructor_rejects_nonpositive (-3) 7) as (Hbad & _).
  destruct (constructor_rejects_nonpositive 5000 2) as (_ & Hgood & _).
  split.
  - apply Hbad. left. lia.
  - destruct (Hgood limiter1Fresh limiter1Fresh_new) as (_ & _ & Hw & Hm).
    split; [exact Hw|exact Hm].
Defined.

(** The sweep tracks no client that was not tracked before. *)
Lemma cleanupStaleRequests_dom rl now :
  dom (requests (self (cleanupStaleRequests rl now))) ⊆ dom (requests rl).
Proof.
  intros id [kept Hk]%elem_of_dom. apply elem_of_dom.
  rewrite cleanupStaleRequests_lookup in Hk.
  by destruct (requests rl !! id).
Qed.

(** C8: in every state reachable from the constructor by admission checks,
    sweeps and stops, every key of the store holds a non-empty log. *)
Theorem stored_logs_nonempty rl :
  reachable rl →
  ∀ id log, requests rl !! id = Some log → log ≠ [].
Proof.
  intros Hr. exact (reachable_nonEmptyLogs rl Hr).
Qed.

Lemma stored_logs_nonempty_witness :
  reachable limiter1Full ∧ [1000; 2000] ≠ ([] : list Z).
Proof.
  split; [exact limiter1Full_reachable|].
  exact (stored_logs_nonempty limiter1Full limiter1Full_reachable
           "userA" [1000; 2000] limiter1Full_userA).
Defined.

(** C9: a check for client [a] leaves the log of every other client [b] as
    it was; so the count reported for [b], and the result, the console output
    and the resulting log of any later check for [b], are what they would
    have been without the check for [a]. *)
Theorem clients_independent rl (a b : string) timestamp :
  a ≠ b →
  let rl' := self (acceptRequest rl a timestamp) in
  requests rl' !! b = requests rl !! b ∧
  getCurrentRequestCount rl' b = getCurrentRequestCount rl b ∧
  ∀ timestamp',
    ret (acceptRequest rl' b timestamp') = ret (acceptRequest rl b timestamp') ∧
    out (acceptRequest rl' b timestamp') = out (acceptRequest rl b timestamp') ∧
    requests (self (acceptRequest rl' b timestamp')) !! b =
    requests (self (acceptRequest rl b timestamp')) !! b.
Proof.
  intros Hne rl'.
  assert (requests rl' !! b = requests rl !! b) as Hb
    by by apply acceptRequest_other.
  split_and!; [done| |].
  - unfold getCurrentRequestCount. by rewrite Hb.
  - intros timestamp'.
    destruct (acceptRequest_config rl a timestamp) as [Hw Hm].
    by apply acceptRequest_local.
Qed.

Lemma clients_independent_witness :
  requests (self (acceptRequest limiter1Full "userA" 3000)) !! "userB" =
    requests limiter1Full !! "userB" ∧
  ret (acceptRequest (self (acceptRequest limiter1Full "userA" 3000)) "userB" 3000) =
    ret (acceptRequest limiter1Full "userB" 3000).
Proof.
  assert ("userA" ≠ "userB") as Hne by discriminate.
  destruct (clients_independent limiter1Full "userA" "userB" 3000 Hne) as (Hlog & _ & Hnext).
  split; [exact Hlog|]. exact (proj1 (Hnext 3000)).
Defined.

(** C10: in every reachable state the quota is an integer at least 1 and
    every stored log has at most [maxRequests] entries, whether they are
    stale or not; so has the pruned log the quota test looks at. A check on
    a tracked client appends its timestamp only when the pruned log is
    strictly shorter than [maxRequests], and a denial stores the pruned log
    with nothing appended. *)
Theorem stored_length_bounded rl :
  reachable rl →
  1 ≤ maxRequests rl ∧
  (∀ id log, requests rl !! id = Some log →
     Z.of_nat (length log) ≤ maxRequests rl) ∧
  (∀ id, Z.of_nat (getCurrentRequestCount rl id) ≤ maxRequests rl) ∧
  (∀ id timestamp log,
     requests rl !! id = Some log → 0 ≤ timestamp →
     let kept := prune (timeWindow rl) timestamp log in
     Z.of_nat (length kept) ≤ maxRequests rl ∧
     (ret (acceptRequest rl id timestamp) = true →
      Z.of_nat (length kept) < maxRequests rl ∧
      requests (self (acceptRequest rl id timestamp)) !! id = Some (kept ++ [timestamp])) ∧
     (ret (acceptRequest rl id timestamp) = false →
      requests (self (acceptRequest rl id timestamp)) !! id = Some kept)).
Proof.
  intros Hr.
  pose proof (reachable_positiveConfig rl Hr) as [_ Hmax].
  pose proof (reachable_boundedLogs rl Hr) as Hb.
  split_and!.
  - lia.
  - exact Hb.
  - intros id. unfold getCurrentRequestCount.
    destruct (requests rl !! id) as [log|] eqn:Hlog; [by eapply Hb|simpl; lia].
  - intros id timestamp log Hlog Hts kept.
    pose proof (Hb _ _ Hlog) as Hlen.
    pose proof (prune_length (timeWindow rl) timestamp log) as Hp.
    rewrite (acceptRequest_ret rl id timestamp log Hts Hlog).
    rewrite (acceptRequest_same rl id timestamp Hts), Hlog. simpl. fold kept.
    split_and!; [subst kept; lia| |];
      destruct (Z.leb_spec (maxRequests rl) (Z.of_nat (length kept))); simpl; done.
Qed.

Lemma stored_length_bounded_witness :
  reachable limiter1Full ∧
  Z.of_nat (length [1000; 2000]) ≤ maxRequests limiter1Full.
Proof.
  split; [exact limiter1Full_reachable|].
  destruct (stored_length_bounded limiter1Full limiter1Full_reachable) as (_ & Hlen & _).
  exact (Hlen "userA" [1000; 2000] limiter1Full_userA).
Defined.

(** * Further properties of the code *)

(** ** Construction and the cleanup task *)

(** With both arguments positive the constructor returns an instance that
    tracks no client, reports a count of 0 for every client, carries the two
    values, and has its cleanup task scheduled every 60000 ms. *)
Theorem constructor_fresh_state tw mr :
  0 < tw → 0 < mr →
  ∃ rl, constructor tw mr = inr rl ∧
        timeWindow rl = tw ∧ maxRequests rl = mr ∧
        requests rl = ∅ ∧
        getTrackedUserCount rl = 0%nat ∧
        (∀ id, getCurrentRequestCount rl id = 0%nat) ∧
        cleanupInterval rl = Some {| delay := 60000 |}.
Proof.
  intros Htw Hmr. unfold constructor.
  destruct (Z.leb_spec tw 0); [lia|].
  destruct (Z.leb_spec mr 0); [lia|].
  simpl. eexists. split; [reflexivity|].
  split_and!; try done.
Qed.

Lemma constructor_fresh_state_witness :
  ∃ rl, constructor 5000 2 = inr rl ∧ getTrackedUserCount rl = 0%nat.
Proof.
  assert (0 < 5000) as Htw by lia.
  assert (0 < 2) as Hmr by lia.
  destruct (constructor_fresh_state 5000 2 Htw Hmr) as (rl & Hnew & _ & _ & _ & Hcount & _).
  exists rl. split; [exact Hnew|exact Hcount].
Defined.

(** Stopping the cleanup task leaves no scheduled task, keeps the store and
    the configuration, does nothing on an instance whose task is already
    stopped, and so has the same effect when called twice. *)
Theorem stopCleanupTask_idempotent rl :
  cleanupInterval (stopCleanupTask rl) = None ∧
  stopCleanupTask (stopCleanupTask rl) = stopCleanupTask rl ∧
  (cleanupInterval rl = None → stopCleanupTask rl = rl) ∧
  requests (stopCleanupTask rl) = requests rl ∧
  timeWindow (stopCleanupTask rl) = timeWindow rl ∧
  maxRequests (stopCleanupTask rl) = maxRequests rl.
Proof.
  unfold stopCleanupTask.
  destruct (cleanupInterval rl) as [h|] eqn:Hh; simpl.
  - done.
  - rewrite Hh. done.
Qed.

Lemma stopCleanupTask_idempotent_witness :
  stopCleanupTask (stopCleanupTask limiter1Fresh) = stopCleanupTask limiter1Fresh ∧
  cleanupInterval (stopCleanupTask limiter1Fresh) = None.
Proof.
  destruct (stopCleanupTask_idempotent limiter1Fresh) as (Hnone & Htwice & _).
  split; [exact Htwice|exact Hnone].
Defined.

Lemma acceptRequest_timer rl id timestamp :
  cleanupInterval (self (acceptRequest rl id timestamp)) = cleanupInterval rl.
Proof.
  unfold acceptRequest.
  destruct (timestamp <? 0); [done|].
  destruct (requests rl !! id); [|done].
  simpl. by destruct (maxRequests rl <=? _).
Qed.

Lemma reachable_timer rl :
  reachable rl →
  cleanupInterval rl = None ∨ cleanupInterval rl = Some {| delay := 60000 |}.
Proof.
  induction 1 as [tw mr rl Hnew|rl id ts _ IH|rl now _ IH|rl _ IH].
  - unfold constructor in Hnew. destruct (_ || _); [done|].
    injection Hnew as <-. by right.
  - by rewrite acceptRequest_timer.
  - done.
  - left. unfold stopCleanupTask. by destruct (cleanupInterval rl) eqn:Hh.
Qed.

(** ** The inspection operations *)

(** [getCurrentRequestCount] is 0 for a client that is not tracked; in a
    reachable state it is 0 for no other client, so a count of 0 means that
    the client has no entry. *)
Theorem current_count_zero_iff_untracked rl id :
  (requests rl !! id = None → getCurrentRequestCount rl id = 0%nat) ∧
  (reachable rl →
   (getCurrentRequestCount rl id = 0%nat ↔ requests rl !! id = None)).
Proof.
  unfold getCurrentRequestCount. split.
  - by intros ->.
  - intros Hr. pose proof (reachable_nonEmptyLogs rl Hr id) as Hne.
    destruct (requests rl !! id) as [log|]; [|done].
    split; [|done]. intros Hlen.
    destruct log; [|done]. by destruct (Hne [] eq_refl).
Qed.

Lemma current_count_zero_iff_untracked_witness :
  getCurrentRequestCount limiter1Full "userB" = 0%nat ∧
  requests limiter1Full !! "userB" = None.
Proof.
  destruct (current_count_zero_iff_untracked limiter1Full "userB") as [Hzero Hiff].
  assert (requests limiter1Full !! "userB" = None) as Hnone by reflexivity.
  split; [exact (Hzero Hnone)|].
  apply (Hiff limiter1Full_reachable). exact (Hzero Hnone).
Defined.

(** A check with a non-negative timestamp never removes a client: the keys
    of the store afterwards are the keys before plus the client of the call.
    The number of tracked clients grows by one when the client was not
    tracked and is unchanged when it was. *)
Theorem acceptRequest_tracks rl id timestamp :
  0 ≤ timestamp →
  dom (requests (self (acceptRequest rl id timestamp))) = {[id]} ∪ dom (requests rl) ∧
  (requests rl !! id = None →
   getTrackedUserCount (self (acceptRequest rl id timestamp)) =
   S (getTrackedUserCount rl)) ∧
  (is_Some (requests rl !! id) →
   getTrackedUserCount (self (acceptRequest rl id timestamp)) =
   getTrackedUserCount rl).
Proof.
  intros Hts. unfold getTrackedUserCount, acceptRequest.
  destruct (Z.ltb_spec timestamp 0); [lia|].
  destruct (requests rl !! id) as [log|] eqn:Hlog; simpl.
  - destruct (maxRequests rl <=? _); simpl;
      (split_and!; [apply dom_insert_L|done|intros _; by apply map_size_insert_Some]).
  - split_and!; [apply dom_insert_L|intros _; by apply map_size_insert_None|].
    by intros [? ?].
Qed.

Lemma acceptRequest_tracks_witness :
  getTrackedUserCount (self (acceptRequest limiter1Full "userB" 3000)) = 2%nat ∧
  getTrackedUserCount (self (acceptRequest limiter1Full "userA" 3000)) = 1%nat.
Proof.
  assert (0 ≤ 3000) as Hts by lia.
  destruct (acceptRequest_tracks limiter1Full "userB" 3000 Hts) as (_ & Hnew & _).
  destruct (acceptRequest_tracks limiter1Full "userA" 3000 Hts) as (_ & _ & Hold).
  split.
  - rewrite Hnew; reflexivity.
  - rewrite Hold; [reflexivity|]. rewrite limiter1Full_userA. by eexists.
Defined.

(** ** Pruning twice *)

Lemma prune_stable window ref ref' (log : list Z) :
  ref' ≤ ref →
  prune window ref' (prune window ref log) = prune window ref log.
Proof.
  intros Hle. pose proof (prune_head window ref log) as Hhead.
  destruct (prune window ref log) as [|t kept]; [done|].
  apply prune_cons_fresh. specialize (Hhead t eq_refl). lia.
Qed.

Lemma prune_later window ref ref' (log : list Z) :
  ref ≤ ref' →
  prune window ref' (prune window ref log) = prune window ref' log.
Proof.
  intros Hle. induction log as [|t log IH]; [done|].
  destruct (Z_le_gt_dec window (ref - t)) as [Ht|Ht].
  - rewrite (prune_cons_stale window ref) by done.
    rewrite (prune_cons_stale window ref') by lia. done.
  - by rewrite (prune_cons_fresh window ref) by lia.
Qed.

Lemma cleanupStaleRequests_storedLog rl now id :
  storedLog (self (cleanupStaleRequests rl now)) id =
  prune (timeWindow rl) now (storedLog rl id).
Proof.
  unfold storedLog. rewrite cleanupStaleRequests_lookup.
  destruct (requests rl !! id) as [log|]; [|done].
  unfold sweepLog. simpl. by destruct (prune (timeWindow rl) now log).
Qed.

(** ** The sweep *)

(** A sweep followed by a sweep whose clock is not later leaves the store
    as the first sweep left it; in particular sweeping twice at the same
    instant is the same as sweeping once. *)
Theorem sweep_idempotent rl now now' :
  now' ≤ now →
  requests (self (cleanupStaleRequests (self (cleanupStaleRequests rl now)) now')) =
  requests (self (cleanupStaleRequests rl now)).
Proof.
  intros Hle. apply map_eq. intros id.
  rewrite (cleanupStaleRequests_lookup (self (cleanupStaleRequests rl now))).
  rewrite cleanupStaleRequests_lookup.
  destruct (requests rl !! id) as [log|]; [|done].
  destruct (sweepLog (timeWindow rl) now log) as [kept|] eqn:Hk; [|done].
  apply sweepLog_Some in Hk as [-> Hne]. simpl.
  unfold sweepLog. rewrite prune_stable by done.
  by destruct (prune (timeWindow rl) now log).
Qed.

Lemma sweep_idempotent_witness :
  requests (self (cleanupStaleRequests (self (cleanupStaleRequests limiter1Full 6000)) 6000)) =
  requests (self (cleanupStaleRequests limiter1Full 6000)).
Proof.
  apply (sweep_idempotent limiter1Full 6000 6000). lia.
Defined.

(** A sweep only removes: the log it leaves for a client is what remains of
    the old log after dropping some leading entries, so the count of every
    client and the number of tracked clients do not grow, and no client
    becomes tracked. *)
Theorem sweep_only_shrinks rl now id :
  (∃ n, storedLog (self (cleanupStaleRequests rl now)) id = drop n (storedLog rl id)) ∧
  (getCurrentRequestCount (self (cleanupStaleRequests rl now)) id
     ≤ getCurrentRequestCount rl id)%nat ∧
  (getTrackedUserCount (self (cleanupStaleRequests rl now))
     ≤ getTrackedUserCount rl)%nat ∧
  (requests rl !! id = None →
   requests (self (cleanupStaleRequests rl now)) !! id = None).
Proof.
  split_and!.
  - rewrite cleanupStaleRequests_storedLog, prune_drop. by eexists.
  - unfold getCurrentRequestCount. rewrite cleanupStaleRequests_lookup.
    destruct (requests rl !! id) as [log|]; [|done].
    destruct (sweepLog _ _ _) as [kept|] eqn:Hk; [|lia].
    apply sweepLog_Some in Hk as [-> _]. apply prune_length.
  - unfold getTrackedUserCount. rewrite <- !size_dom.
    apply subseteq_size, cleanupStaleRequests_dom.
  - intros Hnone. by rewrite cleanupStaleRequests_lookup, Hnone.
Qed.

Lemma sweep_only_shrinks_witness :
  (getCurrentRequestCount (self (cleanupStaleRequests limiter1Full 6000)) "userA" ≤ 2)%nat ∧
  requests (self (cleanupStaleRequests limiter1Full 6000)) !! "userB" = None.
Proof.
  destruct (sweep_only_shrinks limiter1Full 6000 "userA") as (_ & Hcount & _).
  destruct (sweep_only_shrinks limiter1Full 6000 "userB") as (_ & _ & _ & Hnone).
  split; [exact Hcount|]. apply Hnone. reflexivity.
Defined.

Lemma acceptRequest_ret_untracked rl id timestamp :
  0 ≤ timestamp → requests rl !! id = None →
  ret (acceptRequest rl id timestamp) = true.
Proof.
  intros Hts Hnone. unfold acceptRequest. rewrite Hnone.
  by destruct (Z.ltb_spec timestamp 0); [lia|].
Qed.

(** A sweep does not change what a later admission check decides: with
    [maxRequests >= 1], a check with a non-negative timestamp that is not
    before the clock of the sweep returns the same result, and leaves the
    same log for its client, as it would have without the sweep. *)
Theorem sweep_transparent rl now id timestamp :
  1 ≤ maxRequests rl →
  0 ≤ timestamp →
  now ≤ timestamp →
  ret (acceptRequest (self (cleanupStaleRequests rl now)) id timestamp) =
  ret (acceptRequest rl id timestamp) ∧
  requests (self (acceptRequest (self (cleanupStaleRequests rl now)) id timestamp)) !! id =
  requests (self (acceptRequest rl id timestamp)) !! id.
Proof.
  intros Hmax Hpos Hle.
  rewrite !acceptRequest_same by done.
  pose proof (cleanupStaleRequests_lookup rl now id) as Hswept.
  destruct (requests rl !! id) as [log|] eqn:Hlog.
  - rewrite (acceptRequest_ret rl id timestamp log) by done.
    pose proof (prune_later (timeWindow rl) now timestamp log Hle) as Hlater.
    destruct (sweepLog (timeWindow rl) now log) as [kept|] eqn:Hk.
    + apply sweepLog_Some in Hk as [-> _].
      rewrite (acceptRequest_ret _ id timestamp _ Hpos Hswept), Hswept.
      simpl. by rewrite Hlater.
    + rewrite (acceptRequest_ret_untracked _ id timestamp Hpos Hswept), Hswept.
      unfold sweepLog in Hk.
      destruct (prune (timeWindow rl) now log) as [|t kept]; [|done].
      rewrite <- Hlater. simpl. change (Z.of_nat 0) with 0.
      destruct (Z.leb_spec (maxRequests rl) 0); [lia|done].
  - rewrite !acceptRequest_ret_untracked by done. by rewrite Hswept.
Qed.

Lemma sweep_transparent_witness :
  ret (acceptRequest (self (cleanupStaleRequests limiter1Full 6000)) "userA" 6000) =
  ret (acceptRequest limiter1Full "userA" 6000).
Proof.
  assert (1 ≤ maxRequests limiter1Full) as Hmax by (vm_compute; discriminate).
  assert (0 ≤ 6000) as Hpos by lia.
  assert (6000 ≤ 6000) as Hle by lia.
  exact (proj1 (sweep_transparent limiter1Full 6000 "userA" 6000 Hmax Hpos Hle)).
Defined.

(** ** Counting inside the window *)

Lemma countInWindow_app window ref (l1 l2 : list Z) :
  countInWindow window ref (l1 ++ l2) =
  (countInWindow window ref l1 + countInWindow window ref l2)%nat.
Proof. unfold countInWindow. by rewrite filter_app, length_app. Qed.

Lemma countInWindow_all_fresh window ref (log : list Z) :
  Forall (λ t, ref - t < window) log → countInWindow window ref log = length log.
Proof.
  induction 1 as [|t log Ht _ IH]; [done|].
  rewrite countInWindow_cons, IH. unfold inWindow.
  destruct (Z.ltb_spec (ref - t) window); [done|lia].
Qed.

Lemma countInWindow_all_stale window ref (log : list Z) :
  Forall (λ t, window ≤ ref - t) log → countInWindow window ref log = 0%nat.
Proof.
  induction 1 as [|t log Ht _ IH]; [done|].
  rewrite countInWindow_cons, IH. unfold inWindow.
  destruct (Z.ltb_spec (ref - t) window); [lia|done].
Qed.

Lemma prune_all_stale window ref (log : list Z) :
  Forall (λ t, window ≤ ref - t) log → prune window ref log = [].
Proof.
  induction 1 as [|t log Ht _ IH]; [done|].
  by rewrite prune_cons_stale.
Qed.

Lemma Sorted_le_drop n (log : list Z) :
  Sorted Z.le log → Sorted Z.le (drop n log).
Proof.
  revert log. induction n as [|n IH]; intros log Hs; [done|].
  destruct log as [|t log]; [done|]. simpl. apply IH. by inversion Hs.
Qed.

Lemma Sorted_le_snoc (log : list Z) x :
  Sorted Z.le log → Forall (λ t, t ≤ x) log → Sorted Z.le (log ++ [x]).
Proof.
  induction log as [|t log IH]; intros Hs Hall; simpl.
  - repeat constructor.
  - inversion Hs as [|?? Hs' Hhd]; subst.
    inversion Hall as [|?? Ht Hall']; subst.
    constructor; [by apply IH|].
    destruct log as [|u log]; simpl; constructor; [done|].
    by inversion Hhd.
Qed.

(** ** The admission decision *)

Ltac safe_integer := vm_compute; split; discriminate.

Ltac safe_integers :=
  repeat first
    [ apply Forall_nil_2
    | apply Forall_cons_2
    | safe_integer
    | split ].

(** On a log in non-decreasing order the check is the sliding-window test.
    For a configuration, a timestamp and stored entries that are safe
    integers: a request with a non-negative timestamp for a tracked client
    is admitted exactly when fewer than [maxRequests] stored entries are
    less than [timeWindow] older than the timestamp. *)
Theorem sorted_decision_exact rl id timestamp log :
  safeConfig rl →
  isSafeInteger timestamp →
  Forall isSafeInteger log →
  requests rl !! id = Some log →
  Sorted Z.le log →
  0 ≤ timestamp →
  (ret (acceptRequest rl id timestamp) = true ↔
   Z.of_nat (countInWindow (timeWindow rl) timestamp log) < maxRequests rl).
Proof.
  intros _ _ _ Hlog Hs Hts.
  rewrite (acceptRequest_ret rl id timestamp log Hts Hlog).
  rewrite <- (countInWindow_prune (timeWindow rl) timestamp log).
  rewrite countInWindow_all_fresh by by apply prune_sorted_fresh.
  destruct (Z.leb_spec (maxRequests rl)
              (Z.of_nat (length (prune (timeWindow rl) timestamp log)))); simpl.
  - split; [done|lia].
  - done.
Qed.

Lemma sorted_decision_exact_witness :
  ret (acceptRequest limiter1Full "userA" 6000) = true.
Proof.
  assert (Sorted Z.le [1000; 2000]) as Hs by (repeat constructor; lia).
  assert (0 ≤ 6000) as Hts by lia.
  assert (safeConfig limiter1Full) as Hcfg by safe_integers.
  assert (isSafeInteger 6000) as Hsafe by safe_integers.
  assert (Forall isSafeInteger [1000; 2000]) as Hlogsafe by safe_integers.
  apply (sorted_decision_exact limiter1Full "userA" 6000 [1000; 2000]
           Hcfg Hsafe Hlogsafe limiter1Full_userA Hs Hts).
  vm_compute. reflexivity.
Defined.

(** Both operations keep a log in order when time does not go backwards: if
    the stored log of a client is in non-decreasing order and none of its
    entries is after the timestamp of a check, the log after the check is in
    non-decreasing order with no entry after that timestamp; a sweep keeps a
    log in non-decreasing order whatever its clock. *)
Theorem logs_stay_ordered rl id :
  (∀ c timestamp,
     0 ≤ timestamp →
     Sorted Z.le (storedLog rl id) →
     Forall (λ t, t ≤ timestamp) (storedLog rl id) →
     Sorted Z.le (storedLog (self (acceptRequest rl c timestamp)) id) ∧
     Forall (λ t, t ≤ timestamp) (storedLog (self (acceptRequest rl c timestamp)) id)) ∧
  (∀ now,
     Sorted Z.le (storedLog rl id) →
     Sorted Z.le (storedLog (self (cleanupStaleRequests rl now)) id)).
Proof.
  split.
  - intros c timestamp Hts Hs Hall.
    destruct (decide (c = id)) as [->|Hne].
    + unfold storedLog in *. rewrite acceptRequest_same by done.
      destruct (requests rl !! id) as [log|]; simpl in *.
      * assert (Sorted Z.le (prune (timeWindow rl) timestamp log)) as Hs'
          by (rewrite prune_drop; by apply Sorted_le_drop).
        assert (Forall (λ t, t ≤ timestamp) (prune (timeWindow rl) timestamp log)) as Hall'
          by (rewrite prune_drop; by apply Forall_drop).
        destruct (maxRequests rl <=? _); simpl; [done|].
        split; [by apply Sorted_le_snoc|].
        apply Forall_app. split; [done|]. repeat constructor. lia.
      * split; repeat constructor. lia.
    + unfold storedLog in *. by rewrite acceptRequest_other by done.
  - intros now Hs. rewrite cleanupStaleRequests_storedLog, prune_drop.
    by apply Sorted_le_drop.
Qed.

Lemma logs_stay_ordered_witness :
  Sorted Z.le (storedLog (self (acceptRequest limiter1Full "userA" 6000)) "userA").
Proof.
  destruct (logs_stay_ordered limiter1Full "userA") as [Hcheck _].
  assert (0 ≤ 6000) as Hts by lia.
  assert (Sorted Z.le (storedLog limiter1Full "userA")) as Hs.
  { unfold storedLog. rewrite limiter1Full_userA. simpl. repeat constructor; lia. }
  assert (Forall (λ t, t ≤ 6000) (storedLog limiter1Full "userA")) as Hall.
  { unfold storedLog. rewrite limiter1Full_userA. simpl. repeat constructor; lia. }
  exact (proj1 (Hcheck "userA" 6000 Hts Hs Hall)).
Defined.

(** A denial is stable: when a check with a non-negative timestamp is
    denied, the same check repeated at once is denied again and leaves the
    store exactly as the first denial left it. *)
Theorem denial_stable rl id timestamp :
  0 ≤ timestamp →
  ret (acceptRequest rl id timestamp) = false →
  let rl' := self (acceptRequest rl id timestamp) in
  ret (acceptRequest rl' id timestamp) = false ∧
  requests (self (acceptRequest rl' id timestamp)) = requests rl'.
Proof.
  intros Hts Hret rl'.
  destruct (requests rl !! id) as [log|] eqn:Hlog.
  2:{ by rewrite acceptRequest_ret_untracked in Hret. }
  rewrite (acceptRequest_ret rl id timestamp log Hts Hlog) in Hret.
  apply negb_false_iff in Hret.
  assert (requests rl' !! id = Some (prune (timeWindow rl) timestamp log)) as Hlog'.
  { unfold rl'. rewrite acceptRequest_same, Hlog by done. simpl. by rewrite Hret. }
  destruct (acceptRequest_config rl id timestamp) as [Hw Hm]. fold rl' in Hw, Hm.
  assert (ret (acceptRequest rl' id timestamp) = false) as Hret'.
  { rewrite (acceptRequest_ret rl' id timestamp _ Hts Hlog').
    rewrite Hw, Hm, prune_stable by lia. by rewrite Hret. }
  split; [done|].
  apply map_eq. intros id'.
  destruct (decide (id = id')) as [<-|Hne].
  - rewrite acceptRequest_same, Hlog' by done. simpl.
    rewrite Hw, Hm, prune_stable by lia. by rewrite Hret.
  - by rewrite acceptRequest_other.
Qed.

Lemma denial_stable_witness :
  ret (acceptRequest (self (acceptRequest limiter1Full "userA" 3000)) "userA" 3000) = false.
Proof.
  assert (0 ≤ 3000) as Hts by lia.
  assert (ret (acceptRequest limiter1Full "userA" 3000) = false) as Hret
    by (vm_compute; reflexivity).
  exact (proj1 (denial_stable limiter1Full "userA" 3000 Hts Hret)).
Defined.

(** A client that has been quiet for a whole window is admitted again: with
    [maxRequests >= 1], when every stored entry of the client is at least
    [timeWindow] older than a non-negative timestamp, the check returns true
    and the log of the client becomes that single timestamp. *)
Theorem quiet_client_readmitted rl id timestamp log :
  1 ≤ maxRequests rl →
  0 ≤ timestamp →
  requests rl !! id = Some log →
  Forall (λ t, timestamp - t >= timeWindow rl) log →
  ret (acceptRequest rl id timestamp) = true ∧
  requests (self (acceptRequest rl id timestamp)) !! id = Some [timestamp].
Proof.
  intros Hmax Hts Hlog Hall.
  assert (prune (timeWindow rl) timestamp log = []) as Hp.
  { apply prune_all_stale. eapply Forall_impl; [exact Hall|]. simpl. intros; lia. }
  rewrite (acceptRequest_ret rl id timestamp log Hts Hlog).
  rewrite acceptRequest_same, Hlog by done. simpl. rewrite Hp. simpl.
  change (Z.of_nat 0) with 0.
  by destruct (Z.leb_spec (maxRequests rl) 0); [lia|].
Qed.

Lemma quiet_client_readmitted_witness :
  requests (self (acceptRequest limiter1Full "userA" 7000)) !! "userA" = Some [7000].
Proof.
  assert (1 ≤ maxRequests limiter1Full) as Hmax by (vm_compute; discriminate).
  assert (0 ≤ 7000) as Hts by lia.
  assert (Forall (λ t, 7000 - t >= timeWindow limiter1Full) [1000; 2000]) as Hall.
  { repeat constructor; vm_compute; discriminate. }
  exact (proj2 (quiet_client_readmitted limiter1Full "userA" 7000 [1000; 2000]
                  Hmax Hts limiter1Full_userA Hall)).
Defined.

(** Pruning looks at the front only. For a configuration, a timestamp and
    stored entries that are safe integers: when the first stored entry of a
    client is less than [timeWindow] older than a non-negative timestamp,
    nothing is pruned, whatever the age of the entries behind it; the
    request is then admitted exactly when the whole stored log is shorter
    than [maxRequests], and a denial leaves the store unchanged. *)
Theorem fresh_head_blocks_pruning rl id timestamp t rest :
  safeConfig rl →
  isSafeInteger timestamp →
  Forall isSafeInteger (t :: rest) →
  0 ≤ timestamp →
  requests rl !! id = Some (t :: rest) →
  timestamp - t < timeWindow rl →
  (ret (acceptRequest rl id timestamp) = true ↔
   Z.of_nat (length (t :: rest)) < maxRequests rl) ∧
  (ret (acceptRequest rl id timestamp) = true →
   requests (self (acceptRequest rl id timestamp)) !! id = Some (t :: rest ++ [timestamp])) ∧
  (ret (acceptRequest rl id timestamp) = false →
   requests (self (acceptRequest rl id timestamp)) = requests rl).
Proof.
  intros _ _ _ Hts Hlog Hfresh.
  rewrite (acceptRequest_ret rl id timestamp _ Hts Hlog).
  pose proof (acceptRequest_same rl id timestamp Hts) as Hsame.
  rewrite Hlog in Hsame. simpl in Hsame.
  rewrite prune_cons_fresh in * by done.
  destruct (Z.leb_spec (maxRequests rl) (Z.of_nat (length (t :: rest)))) as [Hfull|Hroom];
    cbn [negb].
  - split_and!; [split; [done|intros ?; exfalso; lia]|done|]. intros _.
    unfold acceptRequest. rewrite Hlog.
    destruct (Z.ltb_spec timestamp 0); [lia|]. simpl.
    rewrite prune_cons_fresh by done.
    destruct (Z.leb_spec (maxRequests rl) (Z.of_nat (length (t :: rest)))); [|lia].
    simpl. by apply insert_id.
  - split_and!; [done| |done]. intros _. exact Hsame.
Qed.

Lemma fresh_head_blocks_pruning_witness :
  let rl := self (acceptRequest (self (acceptRequest limiter1Fresh "userA" 5000)) "userA" 1000) in
  requests rl !! "userA" = Some [5000; 1000] ∧
  countInWindow (timeWindow rl) 6000 [5000; 1000] = 1%nat ∧
  ret (acceptRequest rl "userA" 6000) = false.
Proof.
  intros rl.
  assert (requests rl !! "userA" = Some [5000; 1000]) as Hlog by (vm_compute; reflexivity).
  assert (0 ≤ 6000) as Hts by lia.
  assert (6000 - 5000 < timeWindow rl) as Hfresh by (vm_compute; reflexivity).
  assert (safeConfig rl) as Hcfg by safe_integers.
  assert (isSafeInteger 6000) as Hsafe by safe_integers.
  assert (Forall isSafeInteger [5000; 1000]) as Hlogsafe by safe_integers.
  destruct (fresh_head_blocks_pruning rl "userA" 6000 5000 [1000]
              Hcfg Hsafe Hlogsafe Hts Hlog Hfresh)
    as ([Hadm _] & _).
  split_and!; [exact Hlog|vm_compute; reflexivity|].
  destruct (ret (acceptRequest rl "userA" 6000)); [|reflexivity].
  specialize (Hadm eq_refl). vm_compute in Hadm. discriminate.
Defined.

(** ** The quota over a whole run *)

Lemma windowed_nil window quota : windowed window quota [].
Proof. intros k t Hk. by rewrite lookup_nil in Hk. Qed.

Lemma windowed_snoc window quota (past : list Z) t :
  windowed window quota past →
  Z.of_nat (countInWindow window t (past ++ [t])) ≤ quota →
  windowed window quota (past ++ [t]).
Proof.
  intros Hpast Hlast k u Hk.
  destruct (decide (k < length past)%nat) as [Hlt|Hge].
  - rewrite lookup_app_l in Hk by done.
    rewrite take_app_le by lia. by apply Hpast.
  - assert (k = length past) as ->.
    { apply lookup_lt_Some in Hk. rewrite length_app in Hk. simpl in Hk. lia. }
    rewrite lookup_app_r, Nat.sub_diag in Hk by lia. injection Hk as <-.
    rewrite take_ge by (rewrite length_app; simpl; lia). done.
Qed.

Lemma windowed_prefix window quota (past rest : list Z) :
  windowed window quota (past ++ rest) → windowed window quota past.
Proof.
  intros Hall k t Hk.
  pose proof (lookup_lt_Some _ _ _ Hk) as Hlt.
  specialize (Hall k t). rewrite lookup_app_l, take_app_le in Hall by lia.
  by apply Hall.
Qed.

Lemma filter_length_mono (P Q : Z → Prop) `{∀ t, Decision (P t)} `{∀ t, Decision (Q t)}
    (l : list Z) :
  (∀ t, P t → Q t) → (length (filter P l) ≤ length (filter Q l))%nat.
Proof.
  intros Himp. induction l as [|t l IH]; [done|].
  rewrite !filter_cons.
  destruct (decide (P t)) as [HP|HP]; destruct (decide (Q t)) as [HQ|HQ]; simpl; try lia.
  destruct HQ. by apply Himp.
Qed.

Lemma windowed_any_window window quota (admitted : list Z) x :
  0 ≤ quota →
  windowed window quota admitted →
  Z.of_nat (admittedWithin window x admitted) ≤ quota.
Proof.
  intros Hquota. induction admitted as [|t past IH] using rev_ind; intros Hw.
  - unfold admittedWithin. simpl. lia.
  - destruct (Z_le_gt_dec t x) as [Hle|Hgt].
    + assert ((past ++ [t]) !! length past = Some t) as Hlast
        by by rewrite lookup_app_r, Nat.sub_diag by lia.
      pose proof (Hw _ _ Hlast) as Hcount.
      rewrite take_ge in Hcount by (rewrite length_app; simpl; lia).
      unfold admittedWithin, countInWindow in *.
      etrans; [|exact Hcount]. apply inj_le.
      apply filter_length_mono. intros a [Ha1 Ha2]. unfold inWindow.
      destruct (Z.ltb_spec (t - a) window); [done|lia].
    + unfold admittedWithin. rewrite filter_app, length_app.
      rewrite filter_cons, decide_False by lia. simpl.
      rewrite Nat.add_0_r. apply IH. by eapply windowed_prefix.
Qed.

(** A check seen from the log of its client, tracked or not. *)
Lemma acceptRequest_storedLog rl id timestamp :
  0 < maxRequests rl → 0 ≤ timestamp →
  let kept := prune (timeWindow rl) timestamp (storedLog rl id) in
  ret (acceptRequest rl id timestamp) = negb (maxRequests rl <=? Z.of_nat (length kept)) ∧
  storedLog (self (acceptRequest rl id timestamp)) id =
  if maxRequests rl <=? Z.of_nat (length kept) then kept else kept ++ [timestamp].
Proof.
  intros Hmax Hts. unfold storedLog.
  rewrite acceptRequest_same by done.
  destruct (requests rl !! id) as [log|] eqn:Hlog; simpl.
  - rewrite (acceptRequest_ret rl id timestamp log Hts Hlog).
    split; [done|]. by destruct (maxRequests rl <=? _).
  - rewrite acceptRequest_ret_untracked by done.
    change (Z.of_nat 0) with 0.
    by destruct (Z.leb_spec (maxRequests rl) 0); [lia|].
Qed.

Lemma perform_config rl c :
  timeWindow (perform rl c) = timeWindow rl ∧
  maxRequests (perform rl c) = maxRequests rl.
Proof.
  destruct c as [id timestamp|now]; simpl; [apply acceptRequest_config|done].
Qed.

Lemma stale_dropped_later window lo lo' (dropped : list Z) :
  lo ≤ lo' →
  Forall (λ d, window ≤ lo - d) dropped → Forall (λ d, window ≤ lo' - d) dropped.
Proof.
  intros Hle Hall. eapply Forall_impl; [exact Hall|]. simpl. intros; lia.
Qed.

(** The invariant of a run, for one client: the admitted timestamps so far
    are the stored log preceded by entries that are stale for every instant
    still to come. *)
Lemma admittedFor_windowed id calls :
  ∀ rl past dropped lo,
    0 < maxRequests rl →
    past = dropped ++ storedLog rl id →
    Forall (λ d, timeWindow rl ≤ lo - d) dropped →
    Forall (λ x, lo ≤ x) (instantsFor id calls) →
    Sorted Z.le (instantsFor id calls) →
    windowed (timeWindow rl) (maxRequests rl) past →
    windowed (timeWindow rl) (maxRequests rl) (past ++ admittedFor id rl calls).
Proof.
  induction calls as [|c calls IH]; intros rl past dropped lo Hmax Hpast Hdrop Hlo Hsorted Hw.
  { simpl. by rewrite app_nil_r. }
  destruct (perform_config rl c) as [Hcw Hcm].
  simpl. rewrite <- Hcw, <- Hcm.
  destruct c as [c timestamp|now]; simpl in *.
  - destruct (decide (c = id)) as [->|Hne].
    + unfold instantsFor in Hlo, Hsorted. simpl in Hlo, Hsorted.
      rewrite bool_decide_eq_true_2 in * by done. simpl in Hlo, Hsorted.
      fold (instantsFor id calls) in Hlo, Hsorted.
      apply Forall_cons in Hlo as [Hlo_ts _].
      assert (Forall (λ x, timestamp ≤ x) (instantsFor id calls)) as Hnext.
      { apply Sorted_StronglySorted in Hsorted; [|intros ???; lia].
        by inversion Hsorted. }
      assert (Sorted Z.le (instantsFor id calls)) as Hsorted' by by inversion Hsorted.
      destruct (Z_lt_le_dec timestamp 0) as [Hneg|Hpos].
      * rewrite acceptRequest_negative by done. simpl.
        apply (IH rl past dropped timestamp); try done.
        by apply (stale_dropped_later _ lo).
      * destruct (acceptRequest_storedLog rl id timestamp Hmax Hpos) as [Hret Hstored].
        destruct (prune_split (timeWindow rl) timestamp (storedLog rl id))
          as [stale [Hsplit Hstale]].
        set (kept := prune (timeWindow rl) timestamp (storedLog rl id)) in *.
        clearbody kept. rewrite Hret.
        assert (Forall (λ d, timeWindow rl ≤ timestamp - d) (dropped ++ stale)) as Hdrop'.
        { apply Forall_app. split; [by apply (stale_dropped_later _ lo)|done]. }
        revert Hstored.
        destruct (Z.leb_spec (maxRequests rl) (Z.of_nat (length kept)))
          as [Hfull|Hroom]; simpl; intros Hstored.
        -- apply (IH _ past (dropped ++ stale) timestamp); try done;
             [lia| |by rewrite Hcw|by rewrite Hcw, Hcm].
           by rewrite Hstored, <- app_assoc, <- Hsplit.
        -- rewrite cons_middle, app_assoc.
           apply (IH _ (past ++ [timestamp]) (dropped ++ stale) timestamp); try done;
             [lia| |by rewrite Hcw|].
           ++ by rewrite Hstored, Hpast, Hsplit, !app_assoc.
           ++ rewrite Hcw, Hcm. apply windowed_snoc; [done|].
              rewrite Hpast, Hsplit, !app_assoc, <- (app_assoc (dropped ++ stale)).
              rewrite countInWindow_app.
              rewrite (countInWindow_all_stale _ _ _ Hdrop').
              pose proof (countInWindow_le_length (timeWindow rl) timestamp
                            (kept ++ [timestamp])) as Hcount.
              rewrite length_app in Hcount. simpl in Hcount. lia.
    + unfold instantsFor in Hlo, Hsorted. simpl in Hlo, Hsorted.
      rewrite bool_decide_eq_false_2 in * by done. simpl.
      fold (instantsFor id calls) in Hlo, Hsorted.
      apply (IH _ past dropped lo); try done; [lia| |by rewrite Hcw|by rewrite Hcw, Hcm].
      unfold storedLog. by rewrite acceptRequest_other.
  - unfold instantsFor in Hlo, Hsorted. simpl in Hlo, Hsorted.
    fold (instantsFor id calls) in Hlo, Hsorted.
    apply Forall_cons in Hlo as [Hlo_now _].
    assert (Forall (λ x, now ≤ x) (instantsFor id calls)) as Hnext.
    { apply Sorted_StronglySorted in Hsorted; [|intros ???; lia].
      by inversion Hsorted. }
    assert (Sorted Z.le (instantsFor id calls)) as Hsorted' by by inversion Hsorted.
    destruct (prune_split (timeWindow rl) now (storedLog rl id)) as [stale [Hsplit Hstale]].
    apply (IH (self (cleanupStaleRequests rl now)) past (dropped ++ stale) now); try done.
    + by rewrite cleanupStaleRequests_storedLog, <- app_assoc, <- Hsplit.
    + apply Forall_app. split; [by apply (stale_dropped_later _ lo)|done].
Qed.

(** The instance is built with safe integers [tw] and [mr], and the
    timestamps of the checks of a client and the clocks of the sweeps are
    safe integers. Over any run of admission checks and sweeps on the new
    instance in which time does not go backwards for that client (these
    timestamps and clocks, in the order of the calls, never decrease), the
    limiter keeps its promise for the client: every admitted request has,
    itself included, at most [maxRequests] admitted requests less than
    [timeWindow] before it, and every window of length [timeWindow] holds at
    most [maxRequests] admitted requests. *)
Theorem sliding_window_guarantee tw mr rl id calls :
  isSafeInteger tw →
  isSafeInteger mr →
  Forall isSafeInteger (instantsFor id calls) →
  constructor tw mr = inr rl →
  Sorted Z.le (instantsFor id calls) →
  windowed tw mr (admittedFor id rl calls) ∧
  ∀ x, Z.of_nat (admittedWithin tw x (admittedFor id rl calls)) ≤ mr.
Proof.
  intros _ _ _ Hnew Hsorted.
  unfold constructor in Hnew.
  destruct (Z.leb_spec tw 0); [done|].
  destruct (Z.leb_spec mr 0); [done|].
  simpl in Hnew. injection Hnew as <-.
  set (rl := startCleanupTask _).
  assert (∃ lo, Forall (λ x, lo ≤ x) (instantsFor id calls)) as [lo Hlo].
  { destruct (instantsFor id calls) as [|lo rest]; [by exists 0|].
    exists lo. constructor; [lia|].
    apply Sorted_StronglySorted in Hsorted; [|intros ???; lia].
    by inversion Hsorted. }
  assert (windowed tw mr (admittedFor id rl calls)) as Hw.
  { apply (admittedFor_windowed id calls rl [] [] lo).
    - simpl. lia.
    - done.
    - constructor.
    - exact Hlo.
    - exact Hsorted.
    - apply windowed_nil. }
  split; [done|]. intros x. apply windowed_any_window; [lia|done].
Qed.

Lemma sliding_window_guarantee_witness :
  admittedFor "userA" limiter1Fresh usageRun = [1000; 2000; 6000; 7000] ∧
  Z.of_nat (admittedWithin 5000 6500 (admittedFor "userA" limiter1Fresh usageRun)) ≤ 2.
Proof.
  assert (Sorted Z.le (instantsFor "userA" usageRun)) as Hsorted.
  { vm_compute. repeat constructor; discriminate. }
  assert (isSafeInteger 5000) as Htw by safe_integers.
  assert (isSafeInteger 2) as Hmr by safe_integers.
  assert (Forall isSafeInteger (instantsFor "userA" usageRun)) as Hsafe.
  { safe_integers. }
  destruct (sliding_window_guarantee 5000 2 limiter1Fresh "userA" usageRun
              Htw Hmr Hsafe limiter1Fresh_new Hsorted) as [_ Hany].
  split; [vm_compute; reflexivity|exact (Hany 6500)].
Defined.

(** A sweep whose clock is at least [timeWindow] past every stored entry of
    a client forgets the client: the next check for it with a non-negative
    timestamp is admitted as a first request, whatever that timestamp is
    (also one earlier than the clock of the sweep or than the forgotten
    entries), and the log of the client becomes that single timestamp. *)
Theorem sweep_resets_client rl now id log timestamp :
  requests rl !! id = Some log →
  Forall (λ t, now - t >= timeWindow rl) log →
  0 ≤ timestamp →
  let rl' := self (cleanupStaleRequests rl now) in
  ret (acceptRequest rl' id timestamp) = true ∧
  requests (self (acceptRequest rl' id timestamp)) !! id = Some [timestamp].
Proof.
  intros Hlog Hall Hts rl'.
  assert (requests rl' !! id = None) as Hgone.
  { unfold rl'. rewrite cleanupStaleRequests_lookup, Hlog.
    apply sweepLog_all_stale.
    eapply Forall_impl; [exact Hall|]. simpl. intros; lia. }
  split.
  - by apply acceptRequest_ret_untracked.
  - by rewrite acceptRequest_same, Hgone.
Qed.

Lemma sweep_resets_client_witness :
  ret (acceptRequest limiter1Full "userA" 2000) = false ∧
  ret (acceptRequest (self (cleanupStaleRequests limiter1Full 60000)) "userA" 2000) = true.
Proof.
  assert (Forall (λ t, 60000 - t >= timeWindow limiter1Full) [1000; 2000]) as Hall.
  { repeat constructor; vm_compute; discriminate. }
  assert (0 ≤ 2000) as Hts by lia.
  split; [vm_compute; reflexivity|].
  exact (proj1 (sweep_resets_client limiter1Full 60000 "userA" [1000; 2000] 2000
                  limiter1Full_userA Hall Hts)).
Defined.

(** * The half-open rule, in the admission check and in the sweep *)

(** The cut made by the pruning loop is the only one with a stale front part
    and a rest that starts inside the window. *)
Lemma half_open_cut window ref (log : list Z) :
  ∃ stale kept,
    kept = prune window ref log ∧
    log = stale ++ kept ∧
    Forall (λ t, ref - t >= window) stale ∧
    (∀ t, head kept = Some t → ref - t < window).
Proof.
  destruct (prune_split window ref log) as [stale [Heq Hst]].
  exists stale, (prune window ref log). split_and!; [done|done| |].
  - eapply Forall_impl; [exact Hst|]. simpl. intros; lia.
  - intros t. apply prune_head.
Qed.

Lemma half_open_cut_stale_head window ref (stale kept : list Z) t rest :
  t :: rest = stale ++ kept →
  (∀ u, head kept = Some u → ref - u < window) →
  ref - t >= window →
  ∃ stale', stale = t :: stale'.
Proof.
  intros Heq Hhead Ht. destruct stale as [|u stale'].
  - simpl in Heq. subst kept. specialize (Hhead t eq_refl). lia.
  - injection Heq as -> _. by eexists.
Qed.

Lemma half_open_cut_fresh_head window ref (stale kept : list Z) t rest :
  t :: rest = stale ++ kept →
  Forall (λ u, ref - u >= window) stale →
  ref - t < window →
  stale = [] ∧ kept = t :: rest.
Proof.
  intros Heq Hst Ht. destruct stale as [|u stale'].
  - done.
  - injection Heq as -> _. inversion Hst; subst. lia.
Qed.

(** C3 (amended to safe integers): for a configuration, a timestamp and
    stored entries that are safe integers, a check with a non-negative
    timestamp for a tracked client cuts the stored log into a front part,
    all of whose entries are at least [timeWindow] old, and a rest that is
    empty or starts with an entry younger than [timeWindow]. The front part
    is removed: the quota test counts the rest only, and the log stored
    after the call is the rest, followed by the timestamp when the request
    is admitted. A first entry exactly [timeWindow] old is in the removed
    part; a first entry strictly younger stops the pruning, so that nothing
    is removed. The removed entries are outside the window, and on a log in
    non-decreasing order every entry of the rest is inside it. *)
Theorem acceptRequest_prunes_half_open rl id timestamp log :
  safeConfig rl →
  isSafeInteger timestamp →
  Forall isSafeInteger log →
  0 ≤ timestamp →
  requests rl !! id = Some log →
  ∃ stale kept,
    log = stale ++ kept ∧
    Forall (λ t, timestamp - t >= timeWindow rl) stale ∧
    (∀ t, head kept = Some t → timestamp - t < timeWindow rl) ∧
    ret (acceptRequest rl id timestamp) =
      negb (maxRequests rl <=? Z.of_nat (length kept)) ∧
    requests (self (acceptRequest rl id timestamp)) !! id =
      Some (if maxRequests rl <=? Z.of_nat (length kept) then kept
            else kept ++ [timestamp]) ∧
    (∀ t rest, log = t :: rest → timestamp - t = timeWindow rl →
               ∃ stale', stale = t :: stale') ∧
    (∀ t rest, log = t :: rest → timestamp - t < timeWindow rl →
               stale = [] ∧ kept = log) ∧
    countInWindow (timeWindow rl) timestamp kept =
      countInWindow (timeWindow rl) timestamp log ∧
    (Sorted Z.le log → Forall (λ t, timestamp - t < timeWindow rl) kept).
Proof.
  intros _ _ _ Hts Hlog.
  destruct (half_open_cut (timeWindow rl) timestamp log)
    as (stale & kept & Hkept & Heq & Hst & Hhead).
  exists stale, kept. split_and!; try done.
  - rewrite (acceptRequest_ret rl id timestamp log Hts Hlog). by rewrite Hkept.
  - rewrite acceptRequest_same, Hlog by done. simpl. rewrite <- Hkept.
    by destruct (maxRequests rl <=? _).
  - intros t rest -> Ht.
    apply (half_open_cut_stale_head (timeWindow rl) timestamp stale kept t rest);
      [done|done|lia].
  - intros t rest -> Ht.
    by apply (half_open_cut_fresh_head (timeWindow rl) timestamp stale kept t rest).
  - rewrite Hkept. apply countInWindow_prune.
  - intros Hs. rewrite Hkept. by apply prune_sorted_fresh.
Qed.

Lemma acceptRequest_prunes_half_open_witness :
  ∃ stale kept,
    [1000; 2000] = stale ++ kept ∧
    requests (self (acceptRequest limiter1Full "userA" 6000)) !! "userA" =
      Some (if maxRequests limiter1Full <=? Z.of_nat (length kept) then kept
            else kept ++ [6000]).
Proof.
  assert (safeConfig limiter1Full) as Hcfg by safe_integers.
  assert (isSafeInteger 6000) as Hsafe by safe_integers.
  assert (Forall isSafeInteger [1000; 2000]) as Hlogsafe by safe_integers.
  assert (0 ≤ 6000) as Hts by lia.
  destruct (acceptRequest_prunes_half_open limiter1Full "userA" 6000 [1000; 2000]
              Hcfg Hsafe Hlogsafe Hts limiter1Full_userA)
    as (stale & kept & Heq & _ & _ & _ & Hstored & _).
  exists stale, kept. split; [exact Heq|exact Hstored].
Defined.




(** ** Where the two amended statements and the quota stop: binary64 *)

(** With [maxRequests] 1.5 the constructor accepts, the checks at 1000 and
    2000 are both admitted, and when the check at 3000 is decided the log of
    the client holds two entries inside the window, more than
    [maxRequests]. *)
Lemma quota_exceeded_with_fractional_maxRequests :
  ∃ rl0,
    Binary64.constructor 5000%float 1.5%float = inr rl0 ∧
    let e1 := Binary64.acceptRequest rl0 "userA" 1000%float in
    let e2 := Binary64.acceptRequest (Binary64.self e1) "userA" 2000%float in
    let rl2 := Binary64.self e2 in
    Binary64.ret e1 = true ∧
    Binary64.ret e2 = true ∧
    Binary64.requests rl2 !! "userA" = Some [1000%float; 2000%float] ∧
    Binary64.prune (Binary64.timeWindow rl2) 3000%float [1000%float; 2000%float] =
      [1000%float; 2000%float] ∧
    Binary64.countInWindow (Binary64.timeWindow rl2) 3000%float
      [1000%float; 2000%float] = 2%nat ∧
    PrimFloat.ltb (Binary64.maxRequests rl2) (Binary64.ofLength 2) = true.
Proof.
  eexists. split; [vm_compute; reflexivity|].
  vm_compute. repeat split; reflexivity.
Qed.

(** With window 2^60 a stored entry 1 is 2^60 - 1 old at timestamp 2^60,
    strictly younger than the window; the difference is rounded to 2^60, so
    the check at 2^60 prunes the entry and admits the request although
    [maxRequests] is 1. *)
Lemma admission_prune_rounds_beyond_safe_integers :
  2 ^ 60 - 1 < 2 ^ 60 ∧
  ¬ isSafeInteger (2 ^ 60) ∧
  Binary64.ofZ 1 = 1%float ∧
  Binary64.ofZ (2 ^ 60) = 0x1p60%float ∧
  ∃ rl0,
    Binary64.constructor (Binary64.ofZ (2 ^ 60)) 1%float = inr rl0 ∧
    let rl1 := Binary64.self (Binary64.acceptRequest rl0 "userA" (Binary64.ofZ 1)) in
    let e2 := Binary64.acceptRequest rl1 "userA" (Binary64.ofZ (2 ^ 60)) in
    Binary64.requests rl1 !! "userA" = Some [Binary64.ofZ 1] ∧
    Binary64.prune (Binary64.timeWindow rl1) (Binary64.ofZ (2 ^ 60)) [Binary64.ofZ 1] = [] ∧
    Binary64.ret e2 = true ∧
    Binary64.requests (Binary64.self e2) !! "userA" = Some [Binary64.ofZ (2 ^ 60)].
Proof.
  split_and!; [lia|intros [_ Hle]; vm_compute in Hle; by apply Hle
              |vm_compute; reflexivity|vm_compute; reflexivity|].
  eexists. split; [vm_compute; reflexivity|].
  vm_compute. repeat split; reflexivity.
Qed.


(** ** The cleanup task in the runtime *)

(** [startCleanupTask] cancels the interval the instance holds and schedules
    a new one. After it the instance holds a handle that no earlier call
    had returned, scheduled with period 60000 ms; the handle it held before
    is no longer scheduled; every other timer of the runtime is as it was.
    Started a second time, it leaves the first handle unscheduled and the
    second one scheduled. A stop after it leaves the instance without handle
    and the handle unscheduled, touches no other timer, and a second stop
    changes nothing. *)
Theorem startCleanupTask_replaces (s : Runtime.Task) :
  Runtime.issued s →
  let s1 := Runtime.startCleanupTask s in
  let s2 := Runtime.startCleanupTask s1 in
  let s3 := Runtime.stopCleanupTask s1 in
  ∃ handle handle',
    Runtime.cleanupInterval s1 = Some handle ∧
    handle = Runtime.nextHandle (Runtime.timers s) ∧
    Runtime.scheduled (Runtime.timers s1) !! handle = Some 60000 ∧
    (∀ old, Runtime.cleanupInterval s = Some old →
            old ≠ handle ∧ Runtime.scheduled (Runtime.timers s1) !! old = None) ∧
    (∀ other, other ≠ handle → Runtime.cleanupInterval s ≠ Some other →
              Runtime.scheduled (Runtime.timers s1) !! other =
              Runtime.scheduled (Runtime.timers s) !! other) ∧
    Runtime.issued s1 ∧
    Runtime.cleanupInterval s2 = Some handle' ∧
    handle' ≠ handle ∧
    Runtime.scheduled (Runtime.timers s2) !! handle = None ∧
    Runtime.scheduled (Runtime.timers s2) !! handle' = Some 60000 ∧
    Runtime.cleanupInterval s3 = None ∧
    Runtime.scheduled (Runtime.timers s3) !! handle = None ∧
    (∀ other, other ≠ handle →
              Runtime.scheduled (Runtime.timers s3) !! other =
              Runtime.scheduled (Runtime.timers s1) !! other) ∧
    Runtime.stopCleanupTask s3 = s3.
Proof.
  intros [Hsched Hheld] s1 s2 s3.
  destruct s as [held [sched next]]. simpl in *.
  exists next, (S next).
  unfold s3, s2, s1, Runtime.stopCleanupTask, Runtime.startCleanupTask,
    Runtime.setInterval, Runtime.clearInterval, Runtime.issued.
  destruct held as [old|]; simpl.
  - assert (old ≠ next) as Hold by (specialize (Hheld old eq_refl); lia).
    split_and!.
    + done.
    + done.
    + by rewrite lookup_insert_eq.
    + intros ? [= <-]. split; [done|].
      by rewrite lookup_insert_ne, lookup_delete_eq.
    + intros other Hne Hnot. rewrite lookup_insert_ne by done.
      rewrite lookup_delete_ne; [done|]. intros ->. by apply Hnot.
    + intros h p. destruct (decide (next = h)) as [<-|Hne]; [lia|].
      rewrite lookup_insert_ne by done.
      intros Hh. apply lookup_delete_Some in Hh as [_ Hh].
      specialize (Hsched h p Hh). lia.
    + intros h [= <-]. lia.
    + done.
    + lia.
    + by rewrite lookup_insert_ne, lookup_delete_eq by lia.
    + by rewrite lookup_insert_eq.
    + done.
    + by rewrite lookup_delete_eq.
    + intros other Hne. by rewrite lookup_delete_ne.
    + done.
  - split_and!.
    + done.
    + done.
    + by rewrite lookup_insert_eq.
    + done.
    + intros other Hne _. by rewrite lookup_insert_ne.
    + intros h p. destruct (decide (next = h)) as [<-|Hne]; [lia|].
      rewrite lookup_insert_ne by done.
      intros Hh. specialize (Hsched h p Hh). lia.
    + intros h [= <-]. lia.
    + done.
    + lia.
    + by rewrite lookup_insert_ne, lookup_delete_eq by lia.
    + by rewrite lookup_insert_eq.
    + done.
    + by rewrite lookup_delete_eq.
    + intros other Hne. by rewrite lookup_delete_ne.
    + done.
Qed.

Lemma startCleanupTask_replaces_witness :
  let s := {| Runtime.cleanupInterval := Some 0%nat;
              Runtime.timers := {| Runtime.scheduled := {[ 0%nat := 60000 ]};
                                   Runtime.nextHandle := 1 |} |} in
  ∃ handle,
    Runtime.cleanupInterval (Runtime.startCleanupTask s) = Some handle ∧
    0%nat ≠ handle ∧
    Runtime.scheduled (Runtime.timers (Runtime.startCleanupTask s)) !! 0%nat = None.
Proof.
  intros s.
  assert (Runtime.issued s) as Hissued.
  { split; simpl.
    - intros h p Hh. apply lookup_singleton_Some in Hh as [<- _]. lia.
    - intros h [= <-]. lia. }
  destruct (startCleanupTask_replaces s Hissued)
    as (handle & handle' & Hheld & _ & _ & Hold & _).
  exists handle. destruct (Hold 0%nat eq_refl) as [Hne Hgone].
  split_and!; [exact Hheld|exact Hne|exact Hgone].
Defined.

(** ** The configuration over a run *)

Lemma perform_timer rl c : cleanupInterval (perform rl c) = cleanupInterval rl.
Proof.
  destruct c as [id timestamp|now]; simpl; [apply acceptRequest_timer|done].
Qed.

Lemma run_frame calls :
  ∀ rl,
    timeWindow (foldl perform rl calls) = timeWindow rl ∧
    maxRequests (foldl perform rl calls) = maxRequests rl ∧
    cleanupInterval (foldl perform rl calls) = cleanupInterval rl.
Proof.
  induction calls as [|c calls IH]; intros rl; simpl; [done|].
  destruct (IH (perform rl c)) as (-> & -> & ->).
  destruct (perform_config rl c) as [-> ->]. by rewrite perform_timer.
Qed.

(** In every reachable state the cleanup task is either stopped or the one
    scheduled every 60000 ms, and no run of admission checks and sweeps
    changes [timeWindow], [maxRequests] or the cleanup task: the
    configuration of an instance is the one it was built with. *)
Theorem reachable_config_and_timer rl :
  reachable rl →
  (cleanupInterval rl = None ∨ cleanupInterval rl = Some {| delay := 60000 |}) ∧
  ∀ calls,
    timeWindow (foldl perform rl calls) = timeWindow rl ∧
    maxRequests (foldl perform rl calls) = maxRequests rl ∧
    cleanupInterval (foldl perform rl calls) = cleanupInterval rl.
Proof.
  intros Hr. split; [by apply reachable_timer|].
  intros calls. apply run_frame.
Qed.

Lemma reachable_config_and_timer_witness :
  timeWindow (foldl perform limiter1Full usageRun) = 5000 ∧
  maxRequests (foldl perform limiter1Full usageRun) = 2.
Proof.
  destruct (reachable_config_and_timer limiter1Full limiter1Full_reachable)
    as [_ Hrun].
  destruct (Hrun usageRun) as (Hw & Hm & _).
  split; [rewrite Hw|rewrite Hm]; reflexivity.
Defined.

(** * The rule in the arithmetic of the language *)

(** The lemmas of this part are about [Module Binary64]: they hold for every
    number, fractions, NaN and magnitudes beyond 2^53 included. *)

Section Binary64Prune.
Variables window ref : float.

Lemma b64_staleScan_shift fuel t (log : list float) i :
  Binary64.staleScan fuel window ref (t :: log) (S i) =
  S (Binary64.staleScan fuel window ref log i).
Proof.
  revert i. induction fuel as [|fuel IH]; intros i; simpl; [done|].
  destruct (log !! i) as [u|]; [|done].
  destruct (Binary64.isStale window ref u); [apply IH|done].
Qed.

Lemma b64_prune_cons t (log : list float) :
  Binary64.prune window ref (t :: log) =
  if Binary64.isStale window ref t then Binary64.prune window ref log else t :: log.
Proof.
  unfold Binary64.prune. simpl.
  destruct (Binary64.isStale window ref t); [|done].
  rewrite b64_staleScan_shift. simpl.
  by destruct (Binary64.staleScan _ _ _ _ _).
Qed.

Lemma b64_prune_cut (log : list float) :
  ∃ stale,
    log = stale ++ Binary64.prune window ref log ∧
    Forall (λ t, Binary64.isStale window ref t = true) stale ∧
    (∀ t, head (Binary64.prune window ref log) = Some t →
          Binary64.isStale window ref t = false).
Proof.
  induction log as [|t log (stale & Heq & Hst & Hhead)].
  - exists []. by split_and!.
  - rewrite b64_prune_cons.
    destruct (Binary64.isStale window ref t) eqn:Ht.
    + exists (t :: stale). split_and!; [simpl; congruence|by constructor|done].
    + exists []. split_and!; [done|done|]. simpl. by intros ? [= <-].
Qed.
End Binary64Prune.

Lemma b64_cleanupEntry_lookup window now (m : gmap string (list float)) entry id :
  Binary64.cleanupEntry window now m entry !! id =
  if decide (entry.1 = id)
  then (if decide (Binary64.prune window now entry.2 = []) then None
        else Some (Binary64.prune window now entry.2))
  else m !! id.
Proof.
  unfold Binary64.cleanupEntry.
  destruct (Binary64.prune window now entry.2) as [|t kept]; simpl.
  - rewrite lookup_delete. by case_decide.
  - rewrite lookup_insert. by case_decide.
Qed.

Lemma b64_foldl_cleanupEntry_lookup window now (entries : list (string * list float)) :
  NoDup entries.*1 →
  ∀ (m : gmap string (list float)) id,
    foldl (Binary64.cleanupEntry window now) m entries !! id =
    match (list_to_map entries : gmap string (list float)) !! id with
    | Some log =>
        if decide (Binary64.prune window now log = []) then None
        else Some (Binary64.prune window now log)
    | None => m !! id
    end.
Proof.
  induction entries as [|[k log] entries IH]; intros Hnd m id; simpl.
  - by rewrite lookup_empty.
  - apply NoDup_cons in Hnd as [Hk Hnd].
    rewrite IH by done.
    destruct (decide (k = id)) as [->|Hne].
    + rewrite lookup_insert_eq.
      rewrite (not_elem_of_list_to_map_1 entries id Hk).
      rewrite b64_cleanupEntry_lookup. simpl. by rewrite decide_True.
    + rewrite lookup_insert_ne by done.
      destruct (list_to_map entries !! id); [done|].
      rewrite b64_cleanupEntry_lookup. simpl. by rewrite decide_False.
Qed.

(** For every number: a check that is not rejected for a negative timestamp
    (the timestamp may be NaN) cuts the log of a tracked client where the
    test [timestamp - t >= timeWindow] of the language first fails. The
    entries before that point pass the test and are removed; the quota test
    [length >= maxRequests] is made on the rest, which is stored, followed by
    the timestamp when the request is admitted. No other client is
    touched. *)
Theorem binary64_check_cuts_at_first_fresh rl id timestamp log :
  PrimFloat.ltb timestamp 0%float = false →
  Binary64.requests rl !! id = Some log →
  ∃ stale kept,
    log = stale ++ kept ∧
    Forall (λ t, PrimFloat.leb (Binary64.timeWindow rl) (PrimFloat.sub timestamp t) = true)
           stale ∧
    (∀ t, head kept = Some t →
          PrimFloat.leb (Binary64.timeWindow rl) (PrimFloat.sub timestamp t) = false) ∧
    Binary64.ret (Binary64.acceptRequest rl id timestamp) =
      negb (PrimFloat.leb (Binary64.maxRequests rl) (Binary64.ofLength (length kept))) ∧
    Binary64.requests (Binary64.self (Binary64.acceptRequest rl id timestamp)) !! id =
      Some (if PrimFloat.leb (Binary64.maxRequests rl) (Binary64.ofLength (length kept))
            then kept else kept ++ [timestamp]) ∧
    (∀ id', id ≠ id' →
       Binary64.requests (Binary64.self (Binary64.acceptRequest rl id timestamp)) !! id' =
       Binary64.requests rl !! id').
Proof.
  intros Hts Hlog.
  destruct (b64_prune_cut (Binary64.timeWindow rl) timestamp log)
    as (stale & Heq & Hst & Hhead).
  exists stale, (Binary64.prune (Binary64.timeWindow rl) timestamp log).
  unfold Binary64.acceptRequest. rewrite Hts, Hlog. simpl.
  split_and!; [done|done|done| | |];
    destruct (PrimFloat.leb (Binary64.maxRequests rl) _); simpl;
    rewrite ?lookup_insert_eq; try done;
    intros id' Hne; by rewrite lookup_insert_ne.
Qed.

Lemma binary64_check_cuts_at_first_fresh_witness :
  ∃ stale kept,
    [1%float] = stale ++ kept ∧
    Binary64.ret
      (Binary64.acceptRequest
         {| Binary64.timeWindow := 0x1p60%float; Binary64.maxRequests := 1%float;
            Binary64.requests := {[ "userA" := [1%float] ]};
            Binary64.cleanupInterval := None |} "userA" 0x1p60%float) =
    negb (PrimFloat.leb 1%float (Binary64.ofLength (length kept))).
Proof.
  assert (PrimFloat.ltb 0x1p60%float 0%float = false) as Hts by reflexivity.
  assert (({[ "userA" := [1%float] ]} : gmap string (list float)) !! "userA" =
          Some [1%float]) as Hlog by apply lookup_singleton_eq.
  destruct (binary64_check_cuts_at_first_fresh
              {| Binary64.timeWindow := 0x1p60%float; Binary64.maxRequests := 1%float;
                 Binary64.requests := {[ "userA" := [1%float] ]};
                 Binary64.cleanupInterval := None |} "userA" 0x1p60%float [1%float]
              Hts Hlog)
    as (stale & kept & Heq & _ & _ & Hret & _).
  exists stale, kept. split; [exact Heq|exact Hret].
Defined.

(** For every number: a sweep cuts the log of every tracked client where the
    test [now - t >= timeWindow] of the language first fails, stores the
    rest under the key and removes the key when the rest is empty; it tracks
    no new client. *)
Theorem binary64_sweep_cuts_at_first_fresh rl now id :
  match Binary64.requests rl !! id with
  | Some log =>
      ∃ stale kept,
        log = stale ++ kept ∧
        Forall (λ t, PrimFloat.leb (Binary64.timeWindow rl) (PrimFloat.sub now t) = true)
               stale ∧
        (∀ t, head kept = Some t →
              PrimFloat.leb (Binary64.timeWindow rl) (PrimFloat.sub now t) = false) ∧
        Binary64.requests (Binary64.self (Binary64.cleanupStaleRequests rl now)) !! id =
          (if decide (kept = []) then None else Some kept)
  | None =>
      Binary64.requests (Binary64.self (Binary64.cleanupStaleRequests rl now)) !! id = None
  end.
Proof.
  unfold Binary64.cleanupStaleRequests. simpl.
  rewrite b64_foldl_cleanupEntry_lookup by apply NoDup_fst_map_to_list.
  rewrite list_to_map_to_list.
  destruct (Binary64.requests rl !! id) as [log|] eqn:Hlog; [|done].
  destruct (b64_prune_cut (Binary64.timeWindow rl) now log)
    as (stale & Heq & Hst & Hhead).
  by exists stale, (Binary64.prune (Binary64.timeWindow rl) now log).
Qed.
